(** * Doctor AI (PyTorch notebook): padding, GRU cell, stacked network, loss

    A shallow embedding of [DrAI_pytorch.ipynb]: the batching function
    [padding], the GRU cell [EHRNN], the two-layer network [build_EHRNN]
    with its masked loss, the split of the data in [load_data] and the
    batches that the training loop reads.

    Conventions of the embedding.
    - A float tensor is a nested list of reals: float32 arithmetic is
      idealised as real arithmetic.  A float that is [inf] or [nan] has no
      real value and is the separate outcome [NonFinite]: it arises from a
      division by zero and from the logarithm of a number that is not
      positive.
    - A Python exception is [None].
    - [torch.randn] and dropout read two explicit random streams that are
      threaded through the calls; [np.random.permutation] and
      [random.sample] are functions that give the drawn list, and results
      on them are stated for every draw that is a permutation.
    - [np.ceil] of a product or quotient of floats is computed in exact
      arithmetic.
    - Element-wise tensor operations are written with [zip_with]; PyTorch
      raises (or broadcasts) on shapes that do not agree, so statements
      about [forward] are made for conforming shapes. *)

From Stdlib Require Import Reals Lra ZArith Lia.
From stdpp Require Import base option list strings.

Abbreviation Vec := (list R).
Abbreviation Mat := (list (list R)).
Abbreviation T3 := (list (list (list R))).

#[global] Instance R_eq_dec : EqDecision R := Req_dec_T.
#[global] Instance R_inhabited : Inhabited R := populate 0%R.

(** ** Tensor primitives *)

Module Tensor.
Local Open Scope R_scope.

Definition zeros (n : nat) : Vec := replicate n 0.
Definition zeros2 (m n : nat) : Mat := replicate m (zeros n).
Definition zeros3 (k m n : nat) : T3 := replicate k (zeros2 m n).

Definition rsum (v : Vec) : R := foldr Rplus 0 v.

Definition vadd : Vec → Vec → Vec := zip_with Rplus.
Definition vmul : Vec → Vec → Vec := zip_with Rmult.
Definition scale (a : R) (v : Vec) : Vec := Rmult a <$> v.

Definition madd : Mat → Mat → Mat := zip_with vadd.
Definition mmul : Mat → Mat → Mat := zip_with vmul.
Definition mmap (f : R → R) (m : Mat) : Mat := (λ r : Vec, f <$> r) <$> m.
Definition tmap (f : R → R) (x : T3) : T3 := (λ m : Mat, mmap f m) <$> x.

(** [torch.matmul] of a row vector with a [k × n] matrix: the linear
    combination of the rows of [W] with the entries of [row]. *)
Definition vecmat (n : nat) (row : Vec) (W : Mat) : Vec :=
  foldr vadd (zeros n) (zip_with scale row W).
Definition matmul (n : nat) (A : Mat) (W : Mat) : Mat :=
  (λ row, vecmat n row W) <$> A.
Definition tmatmul (n : nat) (x : T3) (W : Mat) : T3 :=
  (λ A, matmul n A W) <$> x.

(** [A + b] with the bias broadcast over the leading dimensions. *)
Definition madd_bias (A : Mat) (b : Vec) : Mat := (λ row, vadd row b) <$> A.
Definition tadd_bias (x : T3) (b : Vec) : T3 := (λ A, madd_bias A b) <$> x.

(** [torch.sum(_, dim=0)]: the sum of the slices along the first
    dimension (only used on tensors with at least one slice). *)
Definition vsum_list (l : list Vec) : Vec :=
  match l with [] => [] | v :: vs => foldl vadd v vs end.
Definition msum_list (l : list Mat) : Mat :=
  match l with [] => [] | m :: ms => foldl madd m ms end.

Definition sigmoid (x : R) : R := 1 / (1 + exp (- x)).

(** Shapes. *)
Definition is_mat (B n : nat) (m : Mat) : Prop :=
  length m = B ∧ Forall (λ r, length r = n) m.
Definition is_t3 (T B n : nat) (x : T3) : Prop :=
  length x = T ∧ Forall (is_mat B n) x.

(** Entry [x[t, i, :]]. *)
Definition slice (x : T3) (t i : nat) : option Vec := x !! t ≫= (.!! i).
(** Entry [m[t, i]]. *)
Definition entry (m : Mat) (t i : nat) : option R := m !! t ≫= (.!! i).
End Tensor.
Import Tensor.

(** ** [padding] *)

Module Padding.
Local Open Scope Z_scope.

(** A visit is a list of code indices; a patient is a list of visits. *)
Abbreviation visit := (list nat).
Abbreviation patient := (list (list nat)).

(** [l[:-1]] and [l[1:]]. *)
Definition all_but_last {A} (l : list A) : list A := take (length l - 1)%nat l.
Definition all_but_first {A} (l : list A) : list A := drop 1 l.

(** [xvec[subseq] = 1.]: [IndexError] on a code outside the vector. *)
Fixpoint index_put (vec : Vec) (codes : list nat) : option Vec :=
  match codes with
  | [] => Some vec
  | c :: cs =>
      if decide (c < length vec)%nat then index_put (<[c := 1%R]> vec) cs
      else None
  end.

(** [for xvec, subseq in zip(x[:,idx,:], visits): xvec[subseq] = 1.]
    The rows of the view [x[:,idx,:]] alias [x], so the assignment
    updates [x] at [[t, idx, :]]. *)
Fixpoint scatter (x : T3) (idx : nat) (visits : list (list nat)) : option T3 :=
  match x, visits with
  | m :: x', v :: vs =>
      row ← m !! idx;
      row' ← index_put row v;
      rest ← scatter x' idx vs;
      Some (<[idx := row']> m :: rest)
  | _, _ => Some x
  end.

(** The end of the slice [[:stop]] on a dimension of size [n]: a negative
    [stop] counts from the end, and the result is clamped to [0..n]. *)
Definition slice_stop (n : nat) (stop : Z) : nat :=
  if stop <? 0 then Z.to_nat (Z.max 0 (stop + Z.of_nat n))
  else Z.to_nat (Z.min stop (Z.of_nat n)).

(** [mask[:stop, idx] = 1.] *)
Definition mask_put (mask : Mat) (stop : Z) (idx : nat) : Mat :=
  let k := slice_stop (length mask) stop in
  (<[idx := 1%R]> <$> take k mask) ++ drop k mask.

(** [np.max]: [ValueError] on an empty array. *)
Definition np_max (l : list Z) : option Z :=
  match l with [] => None | z :: zs => Some (foldl Z.max z zs) end.

(** The body of [for idx, (seq,label) in enumerate(zip(seqs,labels))]. *)
Fixpoint padding_loop (idx : nat) (seqs labels : list patient)
    (lengths : list Z) (st : T3 * T3 * Mat) : option (T3 * T3 * Mat) :=
  match seqs, labels with
  | seq :: seqs', label :: labels' =>
      let '(x, y, mask) := st in
      x' ← scatter x idx (all_but_last seq);
      y' ← scatter y idx (all_but_first label);
      len ← lengths !! idx;
      padding_loop (S idx) seqs' labels' lengths (x', y', mask_put mask len idx)
  | _, _ => Some st
  end.

Definition seq_lengths (seqs : list patient) : list Z :=
  (λ seq, Z.of_nat (length seq) - 1) <$> seqs.

(** [torch.zeros] raises on a negative dimension. *)
Definition padding (seqs labels : list patient) (vocab n_classes : nat)
    : option (T3 * T3 * list Z * Mat) :=
  let lengths := seq_lengths seqs in
  let n_samples := length lengths in
  maxlen ← np_max lengths;
  if maxlen <? 0 then None else
  let x := zeros3 (Z.to_nat maxlen) n_samples vocab in
  let y := zeros3 (Z.to_nat maxlen) n_samples n_classes in
  let mask := zeros2 (Z.to_nat maxlen) n_samples in
  '(x, y, mask) ← padding_loop 0 seqs labels lengths (x, y, mask);
  Some (x, y, lengths, mask).

(** The sample that the pass for column [i] reads, when the loop starts
    at index [idx]. *)
Definition sample_at (idx : nat) (seqs labels : list patient) (i : nat)
    : option (patient * patient) :=
  if decide (idx ≤ i)%nat then zip seqs labels !! (i - idx)%nat else None.

Definition put_visit (visits : list visit) (t : nat) (o : option Vec)
    : option Vec :=
  match visits !! t with
  | Some v => o ≫= λ row, index_put row v
  | None => o
  end.

(** The multi-hot encoding of a visit over [n] codes: 1 at each code
    index present in the visit. *)
Definition multi_hot (n : nat) (codes : list nat) : Vec :=
  (λ j, if decide (j ∈ codes) then 1%R else 0%R) <$> seq 0 n.

(** Column [i] of the mask and the number of its entries equal to 1. *)
Definition mask_column (mask : Mat) (i : nat) : Vec := omap (.!! i) mask.
Definition count_ones (col : Vec) : nat := length (filter (λ v, v = 1%R) col).
End Padding.
Import Padding.

(** ** Floats that may be [inf] or [nan] *)

Inductive fval : Type :=
  | Finite (r : R)
  | NonFinite.

Module Float.
Local Open Scope R_scope.

(** Once a value is [inf] or [nan], sums and means of it stay so. *)
Definition fadd (a b : fval) : fval :=
  match a, b with
  | Finite x, Finite y => Finite (x + y)
  | _, _ => NonFinite
  end.

(** Division of a float by an integer converted to float: a zero divisor
    gives [inf] or [nan]. *)
Definition fdiv_int (a : fval) (n : Z) : fval :=
  match a with
  | Finite x => if (n =? 0)%Z then NonFinite else Finite (x / IZR n)
  | NonFinite => NonFinite
  end.

(** [torch.log]: [-inf] at 0 and [nan] below 0. *)
Definition flog (x : R) : fval :=
  if Rlt_dec 0 x then Finite (ln x) else NonFinite.

(** The product of a finite float with a float: [0 * inf] is [nan]. *)
Definition fscale (c : R) (a : fval) : fval :=
  match a with Finite x => Finite (c * x) | NonFinite => NonFinite end.

Definition fdiv_nat (a : fval) (n : nat) : fval :=
  match a, n with
  | Finite x, S _ => Finite (x / INR n)
  | _, _ => NonFinite
  end.

Definition fsum (l : list fval) : fval := foldr fadd (Finite 0) l.

(** [torch.mean]: [nan] on an empty tensor. *)
Definition fmean (l : list fval) : fval := fdiv_nat (fsum l) (length l).
Definition fneg (a : fval) : fval :=
  match a with Finite x => Finite (- x) | NonFinite => NonFinite end.

(** Element-wise sums of vectors and matrices of such floats, and
    [torch.sum(_, dim=0)] on a tensor with at least one slice. *)
Definition fvadd : list fval → list fval → list fval := zip_with fadd.
Definition fmadd : list (list fval) → list (list fval) → list (list fval) :=
  zip_with fvadd.
Definition fmsum_list (l : list (list (list fval))) : list (list fval) :=
  match l with [] => [] | m :: ms => foldl fmadd m ms end.

(** Shapes of matrices and tensors of such floats. *)
Definition is_fmat (B n : nat) (m : list (list fval)) : Prop :=
  length m = B ∧ Forall (λ r, length r = n) m.
Definition is_ft3 (T B n : nat) (x : list (list (list fval))) : Prop :=
  length x = T ∧ Forall (is_fmat B n) x.

End Float.
Import Float.

(** ** Random streams *)

(** The state of the generators: [normal] is the stream read by
    [torch.randn], [bern] the stream of keep/drop decisions read by
    dropout; [npos] and [bpos] are the read positions. *)
Record RNG : Type := mkRNG {
  normal : nat → R;
  npos : nat;
  bern : nat → bool;
  bpos : nat
}.

Module Random.
Local Open Scope R_scope.

(** [torch.randn(rows, cols)]: [rows * cols] draws in row-major order. *)
Definition randn (rows cols : nat) (g : RNG) : Mat * RNG :=
  ((λ i, (λ j, normal g (npos g + i * cols + j)%nat) <$> seq 0 cols) <$> seq 0 rows,
   mkRNG (normal g) (npos g + rows * cols)%nat (bern g) (bpos g)).

(** [nn.Dropout(p=0.5)] on one row in training mode: a kept entry is
    scaled by [1 / (1 - p)], a dropped one is zero. *)
Definition drop_vec (keep : nat → bool) (pos : nat) (v : Vec) : Vec :=
  imap (λ j a, if keep (pos + j)%nat then a / (1 - 0.5) else 0) v.

Fixpoint drop_mat (keep : nat → bool) (pos : nat) (m : Mat) : Mat * nat :=
  match m with
  | [] => ([], pos)
  | v :: m' =>
      let '(r, pos') := drop_mat keep (pos + length v)%nat m' in
      (drop_vec keep pos v :: r, pos')
  end.

Fixpoint drop_t3 (keep : nat → bool) (pos : nat) (x : T3) : T3 * nat :=
  match x with
  | [] => ([], pos)
  | m :: x' =>
      let '(m1, pos1) := drop_mat keep pos m in
      let '(r, pos2) := drop_t3 keep pos1 x' in
      (m1 :: r, pos2)
  end.

(** [self.dropout(_)]: the identity in evaluation mode. *)
Definition dropout (training : bool) (x : T3) (g : RNG) : T3 * RNG :=
  if training then
    let '(x', pos') := drop_t3 (bern g) (bpos g) x in
    (x', mkRNG (normal g) (npos g) (bern g) pos')
  else (x, g).
End Random.
Import Random.

(** ** The GRU cell: class [EHRNN] *)

Module EHRNN.
Local Open Scope R_scope.

Record t : Type := mk {
  hiddenDimSize : nat;
  inputDimSize : nat;
  embSize : nat;
  numClass : nat;
  batchSize : nat;
  W_z : Mat; W_r : Mat; W_h : Mat;
  U_z : Mat; U_r : Mat; U_h : Mat;
  b_z : Vec; b_r : Vec; b_h : Vec
}.

(** [EHRNN.__init__]: the gate matrices are drawn with [torch.randn],
    the biases are zero. *)
Definition __init__ (inputDimSize hiddenDimSize embSize batchSize numClass : nat)
    (g : RNG) : t * RNG :=
  let '(W_z, g) := randn embSize hiddenDimSize g in
  let '(W_r, g) := randn embSize hiddenDimSize g in
  let '(W_h, g) := randn embSize hiddenDimSize g in
  let '(U_z, g) := randn hiddenDimSize hiddenDimSize g in
  let '(U_r, g) := randn hiddenDimSize hiddenDimSize g in
  let '(U_h, g) := randn hiddenDimSize hiddenDimSize g in
  (mk hiddenDimSize inputDimSize embSize numClass batchSize
      W_z W_r W_h U_z U_r U_h
      (zeros hiddenDimSize) (zeros hiddenDimSize) (zeros hiddenDimSize), g).

(** [EHRNN.forward(emb, h)]. *)
Definition forward (self : t) (emb h : Mat) : Mat :=
  let n := hiddenDimSize self in
  let z := mmap sigmoid
    (madd_bias (madd (matmul n emb (W_z self)) (matmul n h (U_z self))) (b_z self)) in
  let r := mmap sigmoid
    (madd_bias (madd (matmul n emb (W_r self)) (matmul n h (U_r self))) (b_r self)) in
  let h_tilde := mmap tanh
    (madd_bias (madd (matmul n emb (W_h self)) (matmul n (mmul r h) (U_h self))) (b_h self)) in
  let h := madd (mmul z h) (mmul (mmap (λ v, 1 - v) z) h_tilde) in
  h.

(** The recurrence as the specification words it, for sample [b] and
    hidden unit [j]; [dot emb_b W j] is the entry [j] of [emb_b · W]. *)
Definition dot (row : Vec) (W : Mat) (j : nat) : R :=
  rsum (zip_with (λ a Wk, a * (Wk !!! j)) row W).

Definition gru_z (self : t) (emb_b h_b : Vec) (j : nat) : R :=
  sigmoid (dot emb_b (W_z self) j + dot h_b (U_z self) j + b_z self !!! j).
Definition gru_r (self : t) (emb_b h_b : Vec) (j : nat) : R :=
  sigmoid (dot emb_b (W_r self) j + dot h_b (U_r self) j + b_r self !!! j).
Definition gru_h_tilde (self : t) (emb_b h_b : Vec) (j : nat) : R :=
  tanh (dot emb_b (W_h self) j
        + dot (imap (λ k hk, gru_r self emb_b h_b k * hk) h_b) (U_h self) j
        + b_h self !!! j).
Definition gru_spec (self : t) (emb_b h_b : Vec) (j : nat) : R :=
  gru_z self emb_b h_b j * (h_b !!! j)
  + (1 - gru_z self emb_b h_b j) * gru_h_tilde self emb_b h_b j.

(** The shapes the constructor gives to the parameters. *)
Definition wf (self : t) : Prop :=
  is_mat (embSize self) (hiddenDimSize self) (W_z self) ∧
  is_mat (embSize self) (hiddenDimSize self) (W_r self) ∧
  is_mat (embSize self) (hiddenDimSize self) (W_h self) ∧
  is_mat (hiddenDimSize self) (hiddenDimSize self) (U_z self) ∧
  is_mat (hiddenDimSize self) (hiddenDimSize self) (U_r self) ∧
  is_mat (hiddenDimSize self) (hiddenDimSize self) (U_h self) ∧
  length (b_z self) = hiddenDimSize self ∧
  length (b_r self) = hiddenDimSize self ∧
  length (b_h self) = hiddenDimSize self.
End EHRNN.

(** ** The stacked network: class [build_EHRNN] *)

Module build_EHRNN.
Local Open Scope R_scope.

Record t : Type := mk {
  inputDimSize : nat;
  hiddenDimSize : nat;
  numClass : nat;
  embSize : nat;
  batchSize : nat;
  logEps : R;
  W_emb : Mat; b_emb : Vec;
  W_out : Mat; b_out : Vec;
  (** the [training] flag of [nn.Module], switched by [model.train()]
      and [model.eval()] *)
  training : bool
}.

(** [build_EHRNN.__init__]; the argument [dropout] is not used, the
    dropout probability is the literal 0.5. *)
Definition __init__ (inputDimSize hiddenDimSize batchSize embSize numClass : nat)
    (dropout logEps : R) (g : RNG) : t * RNG :=
  let '(W_emb, g) := randn inputDimSize embSize g in
  let b_emb := zeros embSize in
  let '(W_out, g) := randn hiddenDimSize numClass g in
  let b_out := zeros numClass in
  (mk inputDimSize hiddenDimSize numClass embSize batchSize logEps
      W_emb b_emb W_out b_out true, g).

Definition init_hidden (self : t) : Mat :=
  zeros2 (batchSize self) (hiddenDimSize self).

(** [for i,seq in enumerate(input_values): h = rnn(seq, h);
    hidden_state.append(h)]: the list of hidden states and the last [h]. *)
Fixpoint time_loop (rnn : EHRNN.t) (input_values : list Mat) (h : Mat)
    : list Mat * Mat :=
  match input_values with
  | [] => ([], h)
  | seq :: rest =>
      let h := EHRNN.forward rnn seq h in
      let '(hidden_state, h_last) := time_loop rnn rest h in
      (h :: hidden_state, h_last)
  end.

(** [torch.stack] raises on an empty list. *)
Definition torch_stack (l : list Mat) : option T3 :=
  match l with [] => None | _ => Some l end.

(** One pass of the loop over the layers: a new [EHRNN] is built, [h]
    is overwritten with the zero state, and the time loop runs. *)
Definition layer_pass (self : t) (hiddenSize : nat) (input_values : T3)
    (h : Mat) (g : RNG) : option (T3 * Mat * RNG) :=
  let '(rnn, g) :=
    EHRNN.__init__ (inputDimSize self) hiddenSize (embSize self)
      (batchSize self) (numClass self) g in
  let h := init_hidden self in
  let '(hidden_state, h) := time_loop rnn input_values h in
  stacked ← torch_stack hidden_state;
  let '(hidden_state, g) := dropout (training self) stacked g in
  Some (hidden_state, h, g).

(** The loop over the layers, with the loop-carried variables
    [input_values], [hidden_state] (unbound before the first pass) and
    [h]. *)
Fixpoint layers (self : t) (sizes : list nat) (input_values : T3)
    (hidden_state : option T3) (h : Mat) (g : RNG)
    : option (T3 * option T3 * Mat * RNG) :=
  match sizes with
  | [] => Some (input_values, hidden_state, h, g)
  | hiddenSize :: sizes' =>
      '(hidden_state, h, g) ← layer_pass self hiddenSize input_values h g;
      layers self sizes' hidden_state (Some hidden_state) h g
  end.

(** [F.softmax(_, dim=1)] on one time slice [[batch, vocab]]: dimension
    1 of the [[time, batch, vocab]] tensor is the batch dimension, so
    every entry is divided by the sum over the samples. *)
Definition softmax_slice (m : Mat) : Mat :=
  let e := mmap exp m in
  let d := vsum_list e in
  (λ row : Vec, zip_with Rdiv row d) <$> e.
Definition softmax_dim1 (x : T3) : T3 := softmax_slice <$> x.

(** [yhat * mask[:,:,None]]. *)
Definition apply_mask (yhat : T3) (mask : Mat) : T3 :=
  zip_with (λ (m : Mat) (mrow : Vec),
              zip_with (λ (v : Vec) (mk : R), (λ p, p * mk) <$> v) m mrow)
           yhat mask.

(** [y * torch.log(p + eps) + (1. - y) * torch.log(1. - p + eps)]. *)
Definition log_term (eps y p : R) : fval :=
  fadd (fscale y (flog (p + eps))) (fscale (1 - y) (flog (1 - p + eps))).

Definition ce_term (eps y p : R) : fval := fneg (log_term eps y p).

Definition cross_entropy (eps : R) (y yhat : T3) : list (list (list fval)) :=
  zip_with (zip_with (zip_with (ce_term eps))) y yhat.

(** [torch.mean] of a matrix. *)
Definition mean2 (m : list (list fval)) : fval := fmean (concat m).

(** [last_step]; [y[-1]] raises on an empty first dimension. *)
Definition last_step (eps : R) (y yhat : T3) : option fval :=
  y_last ← last y;
  yhat_last ← last yhat;
  Some (fneg (mean2 (zip_with (zip_with (log_term eps)) y_last yhat_last))).

(** [torch.sum(torch.sum(cross_entropy, dim=0), dim=1) / lengths]. *)
Definition prediction_loss (ce : list (list (list fval))) (lengths : list Z)
    : list fval :=
  zip_with fdiv_int (fsum <$> fmsum_list ce) lengths.

Definition l2_penalty (W : Mat) : R :=
  0.000001 * rsum ((λ w, w ^ 2) <$> concat W).

(** The last assignment of [forward]: [last_step] is in scope and is
    not read. *)
Definition cost_of (prediction_loss : list fval) (last_step : fval) (W_out : Mat)
    : fval :=
  fadd (fmean prediction_loss) (Finite (l2_penalty W_out)).

(** The hidden states of the last layer (lines up to the dropout). *)
Definition hidden_states (self : t) (x : T3) (h : Mat) (g : RNG)
    : option (T3 * RNG) :=
  let emb := tmap tanh (tadd_bias (tmatmul (embSize self) x (W_emb self)) (b_emb self)) in
  let input_values := emb in
  '(_, hidden_state, _, g) ←
    layers self [hiddenDimSize self; hiddenDimSize self] input_values None h g;
  hidden_state ← hidden_state;
  Some (hidden_state, g).

(** [yhat] before the mask is applied. *)
Definition probabilities (self : t) (hidden_state : T3) : T3 :=
  let y_linear :=
    tadd_bias (tmatmul (numClass self) hidden_state (W_out self)) (b_out self) in
  softmax_dim1 y_linear.

(** [build_EHRNN.forward(x, y, h, lengths, mask)]. *)
Definition forward (self : t) (x y : T3) (h : Mat) (lengths : list Z) (mask : Mat)
    (g : RNG) : option (T3 * T3 * fval * RNG) :=
  '(hidden_state, g) ← hidden_states self x h g;
  let yhat := probabilities self hidden_state in
  let yhat := apply_mask yhat mask in
  let cross_entropy := cross_entropy (logEps self) y yhat in
  last_step ← last_step (logEps self) y yhat;
  let prediction_loss := prediction_loss cross_entropy lengths in
  let cost := cost_of prediction_loss last_step (W_out self) in
  Some (yhat, hidden_state, cost, g).

(** The cost as the specification words it: the batch mean over the
    samples of the cross-entropy summed over all timesteps and codes and
    divided by the sample's length, plus the L2 penalty. *)
Definition sample_ce (ce : list (list (list fval))) (b : nat) : fval :=
  fsum ((λ m : list (list fval), fsum (m !!! b)) <$> ce).
Definition spec_loss (ce : list (list (list fval))) (lengths : list Z) : fval :=
  fmean (imap (λ b len, fdiv_int (sample_ce ce b) len) lengths).
Definition spec_cost (ce : list (list (list fval))) (lengths : list Z) (W_out : Mat)
    : fval :=
  fadd (spec_loss ce lengths)
       (Finite (0.000001 * rsum ((λ row : Vec, rsum ((λ w, w * w) <$> row)) <$> W_out))).

(** The cross-entropy of the labels against the prediction 0. *)
Definition ce_of_labels (eps : R) (y : T3) : list (list (list fval)) :=
  (λ m : Mat, (λ r : Vec, (λ yv, ce_term eps yv 0) <$> r) <$> m) <$> y.

(** The states of a recurrence that is started from the state [h0], as
    the specification words it: there is one state per timestep, and the
    state at timestep [t] is the cell applied to the input at [t] and to
    the state at [t - 1], which is [h0] at the first timestep. *)
Definition recurrence_from (rnn : EHRNN.t) (h0 : Mat)
    (input_values states : list Mat) : Prop :=
  length states = length input_values ∧
  ∀ t seq, input_values !! t = Some seq →
    states !! t =
    Some (EHRNN.forward rnn seq (match t with O => h0 | S t' => states !!! t' end)).

(** The shapes the constructor gives to the parameters. *)
Definition wf (self : t) : Prop :=
  is_mat (inputDimSize self) (embSize self) (W_emb self) ∧
  length (b_emb self) = embSize self ∧
  is_mat (hiddenDimSize self) (numClass self) (W_out self) ∧
  length (b_out self) = numClass self.
End build_EHRNN.

(** ** Parameter registration of [nn.Module] *)

Module nn.
(** A module object, as far as [parameters()] reads it: the names in
    [_parameters] and, for each entry of [_modules], the names that the
    sub-module's own [parameters()] yields. *)
Record module : Type := Registry {
  _parameters : list string;
  _modules : list (string * list string)
}.

(** What is assigned to an attribute: an [nn.Parameter], a sub-module,
    or any other object. *)
Inductive value : Type :=
  | Param
  | Submodule (m : module)
  | Plain.

Definition empty : module := Registry [] [].

(** [module.parameters()], by name: the module's own parameters, then
    those of its sub-modules. *)
Definition parameters (self : module) : list string :=
  _parameters self
  ++ concat ((λ c : string * list string,
                (λ p : string, c.1 +:+ "." +:+ p) <$> c.2) <$> _modules self).

(** [nn.Module.__setattr__]: a parameter is entered in [_parameters], a
    module in [_modules], anything else is an ordinary attribute. *)
Definition setattr (self : module) (name : string) (v : value) : module :=
  match v with
  | Param =>
      Registry (if decide (name ∈ _parameters self) then _parameters self
                else _parameters self ++ [name]) (_modules self)
  | Submodule m =>
      Registry (_parameters self) (_modules self ++ [(name, parameters m)])
  | Plain => self
  end.

Definition assign (self : module) (attrs : list (string * value)) : module :=
  foldl (λ m '(name, v), setattr m name v) self attrs.

(** The attribute assignments of [EHRNN.__init__], in order. *)
Definition EHRNN_attrs : list (string * value) :=
  [("hiddenDimSize", Plain); ("inputDimSize", Plain); ("embSize", Plain);
   ("numClass", Plain); ("batchSize", Plain);
   ("W_z", Param); ("W_r", Param); ("W_h", Param);
   ("U_z", Param); ("U_r", Param); ("U_h", Param);
   ("b_z", Param); ("b_r", Param); ("b_h", Param);
   ("params", Plain)].

(** The attribute assignments of [build_EHRNN.__init__], in order;
    [nn.Dropout] has no parameters. *)
Definition build_EHRNN_attrs : list (string * value) :=
  [("inputDimSize", Plain); ("hiddenDimSize", Plain); ("numClass", Plain);
   ("embSize", Plain); ("batchSize", Plain);
   ("dropout", Submodule empty); ("logEps", Plain);
   ("W_emb", Param); ("b_emb", Param); ("W_out", Param); ("b_out", Param);
   ("params", Plain)].

(** The attribute assignments of [build_EHRNN.forward]: [self.emb] and
    [self.outputs].  The cell [rnn = EHRNN(...)] is bound to a local
    variable, not to an attribute of [self]. *)
Definition forward_attrs : list (string * value) :=
  [("emb", Plain); ("outputs", Plain)].

Definition build_EHRNN_module : module := assign empty build_EHRNN_attrs.
Definition EHRNN_module : module := assign empty EHRNN_attrs.

(** The model object after [n] calls of [forward]. *)
Definition after_forwards (n : nat) : module :=
  Nat.iter n (λ m, assign m forward_attrs) build_EHRNN_module.

Definition gate_parameters : list string :=
  ["W_z"; "W_r"; "W_h"; "U_z"; "U_r"; "U_h"; "b_z"; "b_r"; "b_h"].
End nn.

(** ** [load_data] *)

Module LoadData.

(** [int(np.ceil(r * n))] for the ratio [r = percent / 100], in exact
    arithmetic. *)
Definition ceil_percent (percent n : nat) : nat := (percent * n + 99) / 100.

(** [a < b] on Python lists of integers: the first position where the
    lists differ decides, and a proper prefix is smaller. *)
Fixpoint visit_lt (a b : visit) : bool :=
  match a, b with
  | _, [] => false
  | [], _ :: _ => true
  | c :: a', d :: b' =>
      if decide (c = d) then visit_lt a' b' else bool_decide (c < d)
  end.

(** [sorted(seq)] on a patient: the visits in ascending order.  Visits
    that compare equal are equal lists, so the result does not depend on
    the sorting algorithm. *)
Fixpoint insort (v : visit) (l : patient) : patient :=
  match l with
  | [] => [v]
  | w :: l' => if visit_lt v w then v :: w :: l' else w :: insort v l'
  end.
Definition sorted (seq : patient) : patient := foldr insort [] seq.

(** [a[idx]] for an array [idx] of indices: [IndexError] on an index
    outside [a]. *)
Definition getitem {A} (a : list A) (idx : list nat) : option (list A) :=
  mapM (λ i, a !! i) idx.

(** A data set: the sequences and the labels of its patients. *)
Abbreviation dataset := (list patient * list patient)%type.

(** [load_data(sequences, labels)]; [permutation n] is the array that
    [np.random.permutation(n)] draws. *)
Definition load_data (permutation : nat → list nat) (sequences labels : list patient)
    : option (dataset * dataset * dataset) :=
  let dataSize := length labels in
  let idx := permutation dataSize in
  let nTest := ceil_percent 15 dataSize in
  let nValid := ceil_percent 10 dataSize in
  let test_idx := take nTest idx in
  let valid_idx := drop nTest (take (nTest + nValid) idx) in
  let train_idx := drop (nTest + nValid) idx in
  train_x ← getitem sequences train_idx;
  train_y ← getitem labels train_idx;
  test_x ← getitem sequences test_idx;
  test_y ← getitem labels test_idx;
  valid_x ← getitem sequences valid_idx;
  valid_y ← getitem labels valid_idx;
  let train_x : list patient := sorted <$> train_x in
  let train_y : list patient := sorted <$> train_y in
  let valid_x : list patient := sorted <$> valid_x in
  let valid_y : list patient := sorted <$> valid_y in
  let test_x : list patient := sorted <$> test_x in
  let test_y : list patient := sorted <$> test_y in
  let train := (train_x, train_y) in
  let test := (test_x, test_y) in
  let valid := (valid_x, valid_y) in
  Some (train, test, valid) : option (dataset * dataset * dataset).

(** [a <= b] on visits, and the patients whose visits ascend. *)
Definition visit_le (a b : visit) : Prop := visit_lt b a = false.
Definition ascending (seq : patient) : Prop :=
  ∀ i j a b, i < j → seq !! i = Some a → seq !! j = Some b → visit_le a b.
End LoadData.

(** ** The batches of the training loop *)

Module Training.
Local Open Scope Z_scope.

(** [int(np.ceil(float(n) / float(batchSize))) - 1], in exact
    arithmetic; the division raises [ZeroDivisionError] for a zero
    [batchSize]. *)
Definition n_batches (n batchSize : nat) : option Z :=
  if decide (batchSize = 0%nat) then None
  else Some ((Z.of_nat n + Z.of_nat batchSize - 1) / Z.of_nat batchSize - 1).

(** [random.sample(range(n), n)]: [ValueError] for a negative [n];
    [sample n] is the list that is drawn for [n ≥ 0]. *)
Definition sample_range (sample : nat → list nat) (n : Z) : option (list nat) :=
  if n <? 0 then None else Some (sample (Z.to_nat n)).

(** [data[:n_batches*batchSize][index*batchSize:(index+1)*batchSize]]. *)
Definition batch {A} (data : list A) (n_batches : Z) (batchSize index : nat)
    : list A :=
  let kept := take (slice_stop (length data) (n_batches * Z.of_nat batchSize)) data in
  drop (index * batchSize) (take ((index + 1) * batchSize) kept).

(** The pairs [(batchX, batchY)] of one epoch over [train], in the order
    in which the loop reads them. *)
Definition epoch (sample : nat → list nat) (train : LoadData.dataset) (batchSize : nat)
    : option (list (list patient * list patient)) :=
  nb ← n_batches (length train.1) batchSize;
  indices ← sample_range sample nb;
  Some ((λ index, (batch train.1 nb batchSize index,
                   batch train.2 nb batchSize index)) <$> (indices : list nat)).
End Training.

(** ** A small data set used in the examples *)

(** A draw of [np.random.permutation] and of [random.sample]: the indices
    in descending order. *)
Definition shuffle0 (n : nat) : list nat := reverse (seq 0 n).

(** Four patients, and a training set of two patients over one code. *)
Definition sequences0 : list patient := [[[2];[1]]; [[0]]; [[1]]; [[3];[0]]].
Definition labels0 : list patient := [[[7];[1]]; [[5]]; [[6]]; [[9];[8]]].
Definition train0 : LoadData.dataset :=
  ([[[0];[0]]; [[0];[0]]], [[[0];[0]]; [[0];[0]]]).

(** ** Concrete models and batches used in the examples *)

(** A small model and batch for the examples: one patient with two
    visits, one code, and every dimension of the model equal to one. *)
Definition g0 : RNG := mkRNG (λ _, 1%R) 0 (λ _, true) 0.
Definition model0 : build_EHRNN.t :=
  build_EHRNN.mk 1 1 1 1 1 (1 / 100000000)%R [[1%R]] [0%R] [[1%R]] [0%R] false.

(** A GRU cell with one input and one hidden unit. *)
Definition rnn0 : EHRNN.t :=
  EHRNN.mk 1 1 1 1 1 [[1%R]] [[1%R]] [[1%R]] [[1%R]] [[1%R]] [[1%R]] [0%R] [0%R] [0%R].

(** A model with [batchSize = 2] and [numClass = 1] (every other
    dimension is 1), for arbitrary values of its parameters. *)
Definition model2 (w_emb b_emb w_out b_out eps : R) (training : bool)
    : build_EHRNN.t :=
  build_EHRNN.mk 1 1 1 1 2 eps [[w_emb]] [b_emb] [[w_out]] [b_out] training.

(** A stream of normal draws that is 0 for the first twelve draws and 1
    afterwards. *)
Definition g_switch : RNG := mkRNG (λ n, if (n <? 12)%nat then 0%R else 1%R) 0 (λ _, true) 0.

(** ** Examples of [padding] *)

Example padding_ex :
  padding [[[0];[1;2];[0]]; [[2];[2]]] [[[0];[1;2];[0]]; [[2];[2]]] 3 3 =
  Some ([[[1;0;0]; [0;0;1]]; [[0;1;1]; [0;0;0]]],
        [[[0;1;1]; [0;0;1]]; [[1;0;0]; [0;0;0]]],
        [2; 1]%Z,
        [[1;1]; [1;0]])%R.
Proof. vm_compute. reflexivity. Qed.

Example padding_empty_seq :
  padding [[]; [[0];[0];[0]]] [[]; [[0];[0];[0]]] 1 1 =
  Some ([[[0]; [1]]; [[0]; [1]]],
        [[[0]; [1]]; [[0]; [1]]],
        [-1; 2]%Z,
        [[1;1]; [0;1]])%R.
Proof. vm_compute. reflexivity. Qed.

(** ** Lemmas on [padding] *)

Section padding_lemmas.
Implicit Types (x y : T3) (mask m : Mat) (vec row : Vec) (codes : list nat).

Lemma index_put_length vec codes vec' :
  index_put vec codes = Some vec' → length vec' = length vec.
Proof.
  revert vec. induction codes as [|c cs IH]; intros vec H; simpl in H.
  - by inversion H.
  - case_decide; [|done]. apply IH in H. by rewrite length_insert in H.
Qed.

Lemma index_put_lookup vec codes vec' j :
  index_put vec codes = Some vec' →
  vec' !! j = if decide (j ∈ codes) then Some 1%R else vec !! j.
Proof.
  revert vec. induction codes as [|c cs IH]; intros vec H; simpl in H.
  - inversion H; subst. case_decide as Hin; [|done]. by apply elem_of_nil in Hin.
  - case_decide as Hc; [|done]. rewrite (IH _ H).
    destruct (decide (j = c)) as [->|Hne].
    + rewrite list_lookup_insert_eq by done.
      rewrite (decide_True (P := c ∈ c :: cs)) by apply list_elem_of_here.
      by case_decide.
    + rewrite list_lookup_insert_ne by done.
      destruct (decide (j ∈ cs)) as [Hin|Hin].
      * rewrite decide_True; [done|by apply list_elem_of_further].
      * rewrite decide_False; [done|]. by intros [?|?]%elem_of_cons.
Qed.

Lemma multi_hot_lookup n codes j :
  multi_hot n codes !! j =
  if decide (j < n) then Some (if decide (j ∈ codes) then 1%R else 0%R) else None.
Proof.
  unfold multi_hot. rewrite list_lookup_fmap. case_decide as Hj.
  - by rewrite lookup_seq_lt.
  - rewrite (proj2 (lookup_ge_None _ _)); [done|]. rewrite length_seq. lia.
Qed.

Lemma index_put_bound vec codes vec' c :
  index_put vec codes = Some vec' → c ∈ codes → c < length vec.
Proof.
  revert vec. induction codes as [|c' cs IH]; intros vec H Hin; simpl in H.
  - by apply elem_of_nil in Hin.
  - case_decide as Hc; [|done]. apply elem_of_cons in Hin as [->|Hin]; [done|].
    specialize (IH _ H Hin). by rewrite length_insert in IH.
Qed.

Lemma index_put_zeros n codes vec' :
  index_put (zeros n) codes = Some vec' → vec' = multi_hot n codes.
Proof.
  intros H. apply list_eq; intros j.
  rewrite (index_put_lookup _ _ _ j H), multi_hot_lookup.
  destruct (decide (j < n)) as [Hj|Hj].
  - unfold zeros. rewrite lookup_replicate_2 by done. by case_decide.
  - case_decide as Hin.
    + pose proof (index_put_bound _ _ _ _ H Hin) as Hlt.
      unfold zeros in Hlt. rewrite length_replicate in Hlt. lia.
    + apply lookup_replicate_None. lia.
Qed.

(** [index_put] returns whenever every code is inside the vector. *)
Lemma index_put_total vec codes :
  Forall (λ c, c < length vec) codes → is_Some (index_put vec codes).
Proof.
  revert vec. induction codes as [|c cs IH]; intros vec H; simpl; [by eexists|].
  apply Forall_cons in H as [Hc Hcs]. rewrite decide_True by done.
  apply IH. by rewrite length_insert.
Qed.

(** *** [scatter] *)

Lemma scatter_length x idx visits x' :
  scatter x idx visits = Some x' → length x' = length x.
Proof.
  revert visits x'. induction x as [|m x IH]; intros visits x' H.
  - destruct visits; by inversion H.
  - destruct visits as [|v vs]; [by inversion H|]. simpl in H.
    destruct (m !! idx) as [row|]; [|done]. simpl in H.
    destruct (index_put row v) as [row'|]; [|done]. simpl in H.
    destruct (scatter x idx vs) as [rest|] eqn:Hrest; [|done]. simpl in H.
    inversion H; subst. simpl. f_equal. by eapply IH.
Qed.

Lemma scatter_slice_ne x idx visits x' t j :
  scatter x idx visits = Some x' → j ≠ idx → slice x' t j = slice x t j.
Proof.
  revert visits x' t. induction x as [|m x IH]; intros visits x' t H Hne.
  - destruct visits; by inversion H.
  - destruct visits as [|v vs]; [by inversion H|]. simpl in H.
    destruct (m !! idx) as [row|]; [|done]. simpl in H.
    destruct (index_put row v) as [row'|]; [|done]. simpl in H.
    destruct (scatter x idx vs) as [rest|] eqn:Hrest; [|done]. simpl in H.
    inversion H; subst. destruct t as [|t]; unfold slice; simpl.
    + by rewrite list_lookup_insert_ne.
    + by apply (IH vs rest t).
Qed.

Lemma scatter_slice_eq x idx visits x' t :
  scatter x idx visits = Some x' →
  slice x' t idx =
  match visits !! t with
  | Some v => slice x t idx ≫= λ row, index_put row v
  | None => slice x t idx
  end.
Proof.
  revert visits x' t. induction x as [|m x IH]; intros visits x' t H.
  - assert (x' = []) as -> by (destruct visits; by inversion H).
    unfold slice. simpl. by destruct (visits !! t).
  - destruct visits as [|v vs]; [by inversion H|]. simpl in H.
    destruct (m !! idx) as [row|] eqn:Hrow; [|done]. simpl in H.
    destruct (index_put row v) as [row'|] eqn:Hput; [|done]. simpl in H.
    destruct (scatter x idx vs) as [rest|] eqn:Hrest; [|done]. simpl in H.
    inversion H; subst. destruct t as [|t]; unfold slice; simpl.
    + rewrite Hrow. simpl. rewrite Hput.
      apply list_lookup_insert_eq. by eapply lookup_lt_Some.
    + by apply (IH vs rest t).
Qed.

Lemma scatter_shape T B n x idx visits x' :
  scatter x idx visits = Some x' → is_t3 T B n x → is_t3 T B n x'.
Proof.
  intros H [Hlen Hall]. split; [by rewrite (scatter_length _ _ _ _ H)|].
  clear Hlen. revert visits x' H. induction Hall as [|m x Hm Hall IH];
    intros visits x' H.
  - destruct visits; inversion H; constructor.
  - destruct visits as [|v vs]; [inversion H; by constructor|]. simpl in H.
    destruct (m !! idx) as [row|] eqn:Hrow; [|done]. simpl in H.
    destruct (index_put row v) as [row'|] eqn:Hput; [|done]. simpl in H.
    destruct (scatter x idx vs) as [rest|] eqn:Hrest; [|done]. simpl in H.
    inversion H; subst. constructor; [|by eapply IH].
    destruct Hm as [HB Hrows]. split; [by rewrite length_insert|].
    apply Forall_insert; [done|].
    rewrite (index_put_length _ _ _ Hput).
    by eapply (proj1 (Forall_lookup _ _) Hrows).
Qed.

(** [scatter] returns when the column exists and the codes are in range. *)
Lemma scatter_total T B n x idx visits :
  is_t3 T B n x → idx < B → Forall (Forall (λ c, c < n)) visits →
  is_Some (scatter x idx visits).
Proof.
  intros [_ Hall] Hidx. revert visits. induction Hall as [|m x Hm Hall IH];
    intros visits Hv.
  - destruct visits; by eexists.
  - destruct visits as [|v vs]; [by eexists|]. simpl.
    apply Forall_cons in Hv as [Hv Hvs]. destruct Hm as [HB Hrows].
    destruct (lookup_lt_is_Some_2 m idx) as [row Hrow]; [lia|].
    rewrite Hrow. simpl.
    assert (length row = n) as Hn
      by (by eapply (proj1 (Forall_lookup _ _) Hrows)).
    destruct (index_put_total row v) as [row' ->]; [by rewrite Hn|]. simpl.
    destruct (IH vs Hvs) as [rest ->]. by eexists.
Qed.

Lemma slice_is_Some T B n x t i :
  is_t3 T B n x → t < T → i < B →
  ∃ row, slice x t i = Some row ∧ length row = n.
Proof.
  intros [Hlen Hall] Ht Hi.
  destruct (lookup_lt_is_Some_2 x t) as [m Hm]; [lia|].
  pose proof (proj1 (Forall_lookup _ _) Hall _ _ Hm) as [HB Hrows].
  destruct (lookup_lt_is_Some_2 m i) as [row Hrow]; [lia|].
  exists row. split; [unfold slice; by rewrite Hm|].
  by eapply (proj1 (Forall_lookup _ _) Hrows).
Qed.

Lemma slice_zeros3 T B n t i :
  t < T → i < B → slice (zeros3 T B n) t i = Some (zeros n).
Proof.
  intros Ht Hi. unfold slice, zeros3, zeros2.
  rewrite lookup_replicate_2 by done. simpl. by rewrite lookup_replicate_2.
Qed.

Lemma zeros3_shape T B n : is_t3 T B n (zeros3 T B n).
Proof.
  split; [apply length_replicate|]. apply Forall_replicate.
  split; [apply length_replicate|]. apply Forall_replicate, length_replicate.
Qed.

(** *** [mask_put] *)

Lemma slice_stop_le n stop : slice_stop n stop ≤ n.
Proof. unfold slice_stop. destruct (Z.ltb_spec stop 0); lia. Qed.

Lemma slice_stop_nonneg n stop :
  (0 ≤ stop ≤ Z.of_nat n)%Z → slice_stop n stop = Z.to_nat stop.
Proof.
  intros H. unfold slice_stop. destruct (Z.ltb_spec stop 0) as [Hs|Hs]; [lia|].
  by rewrite Z.min_l by lia.
Qed.

Lemma mask_put_lookup mask stop idx t :
  mask_put mask stop idx !! t =
  if decide (t < slice_stop (length mask) stop)
  then <[idx := 1%R]> <$> mask !! t else mask !! t.
Proof.
  unfold mask_put. pose proof (slice_stop_le (length mask) stop) as Hk.
  set (k := slice_stop (length mask) stop) in *.
  case_decide as Ht.
  - rewrite lookup_app_l by (rewrite length_fmap, length_take; lia).
    by rewrite list_lookup_fmap, lookup_take_lt.
  - rewrite lookup_app_r by (rewrite length_fmap, length_take; lia).
    rewrite length_fmap, length_take, lookup_drop. f_equal. lia.
Qed.

Lemma mask_put_length mask stop idx :
  length (mask_put mask stop idx) = length mask.
Proof.
  unfold mask_put. pose proof (slice_stop_le (length mask) stop).
  rewrite length_app, length_fmap, length_take, length_drop. lia.
Qed.

Lemma mask_put_entry_ne mask stop idx t i :
  i ≠ idx → entry (mask_put mask stop idx) t i = entry mask t i.
Proof.
  intros Hne. unfold entry. rewrite mask_put_lookup. case_decide; [|done].
  destruct (mask !! t) as [row|]; [|done]. simpl.
  by rewrite list_lookup_insert_ne.
Qed.

Lemma mask_put_entry_eq mask stop idx t :
  entry (mask_put mask stop idx) t idx =
  if decide (t < slice_stop (length mask) stop)
  then (λ _, 1%R) <$> entry mask t idx else entry mask t idx.
Proof.
  unfold entry. rewrite mask_put_lookup. case_decide; [|done].
  destruct (mask !! t) as [row|]; [|done]. simpl.
  destruct (row !! idx) as [v|] eqn:Hv; simpl.
  - apply list_lookup_insert_eq. by eapply lookup_lt_Some.
  - apply lookup_ge_None. rewrite length_insert. by apply lookup_ge_None.
Qed.

Lemma mask_put_shape T B mask stop idx :
  is_mat T B mask → is_mat T B (mask_put mask stop idx).
Proof.
  intros [Hlen Hrows]. split; [by rewrite mask_put_length|].
  unfold mask_put. apply Forall_app. split.
  - apply Forall_fmap. eapply Forall_impl; [by apply Forall_take|].
    intros row Hrow. simpl. by rewrite length_insert.
  - by apply Forall_drop.
Qed.

(** *** The loop over the samples *)

Lemma sample_at_cons_lt idx seq seqs label labels i :
  i < idx → sample_at idx (seq :: seqs) (label :: labels) i = None.
Proof. intros. unfold sample_at. rewrite decide_False; [done|lia]. Qed.

Lemma sample_at_cons_eq idx seq seqs label labels :
  sample_at idx (seq :: seqs) (label :: labels) idx = Some (seq, label).
Proof.
  unfold sample_at. rewrite decide_True by lia. by rewrite Nat.sub_diag.
Qed.

Lemma sample_at_cons_gt idx seq seqs label labels i :
  idx < i →
  sample_at idx (seq :: seqs) (label :: labels) i = sample_at (S idx) seqs labels i.
Proof.
  intros. unfold sample_at. rewrite !decide_True by lia.
  replace (i - idx) with (S (i - S idx)) by lia. done.
Qed.

Lemma sample_at_S_idx idx seqs labels :
  sample_at (S idx) seqs labels idx = None.
Proof. unfold sample_at. rewrite decide_False; [done|lia]. Qed.

Lemma padding_loop_spec idx seqs labels lengths x y mask x' y' mask' :
  padding_loop idx seqs labels lengths (x, y, mask) = Some (x', y', mask') →
  (∀ t i, slice x' t i =
     match sample_at idx seqs labels i with
     | Some (seq, _) => put_visit (all_but_last seq) t (slice x t i)
     | None => slice x t i
     end) ∧
  (∀ t i, slice y' t i =
     match sample_at idx seqs labels i with
     | Some (_, label) => put_visit (all_but_first label) t (slice y t i)
     | None => slice y t i
     end) ∧
  (∀ t i, entry mask' t i =
     match sample_at idx seqs labels i, lengths !! i with
     | Some _, Some len =>
         if decide (t < slice_stop (length mask) len)
         then (λ _, 1%R) <$> entry mask t i else entry mask t i
     | _, _ => entry mask t i
     end) ∧
  length mask' = length mask ∧
  (∀ i, is_Some (sample_at idx seqs labels i) → is_Some (lengths !! i)).
Proof.
  revert labels idx x y mask.
  induction seqs as [|seq seqs IH]; intros labels idx x y mask H.
  { inversion H; subst. unfold sample_at.
    repeat split; try done; intros; case_decide; try done;
      by apply is_Some_None in H0 || by inversion H0 as [? ?]. }
  destruct labels as [|label labels].
  { inversion H; subst. unfold sample_at.
    repeat split; try done; intros; case_decide; try done;
      rewrite ?lookup_nil in *; try done; by inversion H0 as [? ?]. }
  simpl in H.
  destruct (scatter x idx (all_but_last seq)) as [x1|] eqn:Hx; [|done].
  destruct (scatter y idx (all_but_first label)) as [y1|] eqn:Hy; [|done].
  destruct (lengths !! idx) as [len|] eqn:Hlen; [|done]. simpl in H.
  destruct (IH _ _ _ _ _ H) as (IHx & IHy & IHm & IHl & IHs).
  assert (∀ i, i < idx ∨ i = idx ∨ idx < i) as Hcases by lia.
  repeat split.
  - intros t i. rewrite IHx. destruct (Hcases i) as [Hi|[->|Hi]].
    + rewrite sample_at_cons_lt by done. unfold sample_at.
      rewrite decide_False by lia. apply (scatter_slice_ne _ _ _ _ _ _ Hx). lia.
    + rewrite sample_at_cons_eq, sample_at_S_idx.
      apply (scatter_slice_eq _ _ _ _ _ Hx).
    + rewrite sample_at_cons_gt by done.
      rewrite (scatter_slice_ne _ _ _ _ t i Hx) by lia. done.
  - intros t i. rewrite IHy. destruct (Hcases i) as [Hi|[->|Hi]].
    + rewrite sample_at_cons_lt by done. unfold sample_at.
      rewrite decide_False by lia. apply (scatter_slice_ne _ _ _ _ _ _ Hy). lia.
    + rewrite sample_at_cons_eq, sample_at_S_idx.
      apply (scatter_slice_eq _ _ _ _ _ Hy).
    + rewrite sample_at_cons_gt by done.
      rewrite (scatter_slice_ne _ _ _ _ t i Hy) by lia. done.
  - intros t i. rewrite IHm, mask_put_length.
    destruct (Hcases i) as [Hi|[->|Hi]].
    + rewrite sample_at_cons_lt by done. unfold sample_at.
      rewrite decide_False by lia. apply mask_put_entry_ne. lia.
    + rewrite sample_at_cons_eq, sample_at_S_idx, Hlen.
      apply mask_put_entry_eq.
    + rewrite sample_at_cons_gt by done.
      rewrite (mask_put_entry_ne _ _ _ t i) by lia. done.
  - by rewrite IHl, mask_put_length.
  - intros i Hi. destruct (Hcases i) as [Hlt|[->|Hgt]].
    + rewrite sample_at_cons_lt in Hi by done. by apply is_Some_None in Hi.
    + by eexists.
    + rewrite sample_at_cons_gt in Hi by done. by apply IHs.
Qed.

Lemma padding_loop_shape T B n n' idx seqs labels lengths x y mask x' y' mask' :
  padding_loop idx seqs labels lengths (x, y, mask) = Some (x', y', mask') →
  is_t3 T B n x → is_t3 T B n' y → is_mat T B mask →
  is_t3 T B n x' ∧ is_t3 T B n' y' ∧ is_mat T B mask'.
Proof.
  revert labels idx x y mask.
  induction seqs as [|seq seqs IH]; intros labels idx x y mask H Hx Hy Hm.
  { by inversion H; subst. }
  destruct labels as [|label labels]; [by inversion H; subst|].
  simpl in H.
  destruct (scatter x idx (all_but_last seq)) as [x1|] eqn:Hx1; [|done].
  destruct (scatter y idx (all_but_first label)) as [y1|] eqn:Hy1; [|done].
  destruct (lengths !! idx) as [len|] eqn:Hlen; [|done]. simpl in H.
  eapply IH; [done| | |].
  - by eapply scatter_shape.
  - by eapply scatter_shape.
  - by apply mask_put_shape.
Qed.
End padding_lemmas.

Section padding_results.
Implicit Types (x y : T3) (mask : Mat) (seqs labels : list patient).

Lemma foldl_max_ge (zs : list Z) (z : Z) :
  (z ≤ foldl Z.max z zs)%Z ∧ ∀ w, w ∈ zs → (w ≤ foldl Z.max z zs)%Z.
Proof.
  revert z. induction zs as [|a zs IH]; intros z; simpl.
  - split; [lia|]. intros w Hw. by apply elem_of_nil in Hw.
  - destruct (IH (Z.max z a)) as [H1 H2]. split; [lia|].
    intros w [->|Hw]%elem_of_cons; [lia|by apply H2].
Qed.

Lemma np_max_ge (l : list Z) (m z : Z) :
  np_max l = Some m → z ∈ l → (z ≤ m)%Z.
Proof.
  destruct l as [|a l]; [done|]. intros [= <-].
  destruct (foldl_max_ge l a) as [H1 H2].
  intros [->|Hz]%elem_of_cons; [done|by apply H2].
Qed.

Lemma foldl_max_elem (zs : list Z) (z : Z) :
  foldl Z.max z zs = z ∨ foldl Z.max z zs ∈ zs.
Proof.
  revert z. induction zs as [|a zs IH]; intros z; simpl; [by left|].
  destruct (IH (Z.max z a)) as [->|Hin].
  - destruct (Z.max_spec z a) as [[_ ->]|[_ ->]]; [right; left|by left].
  - right. by right.
Qed.

Lemma np_max_elem (l : list Z) (m : Z) : np_max l = Some m → m ∈ l.
Proof.
  destruct l as [|a l]; [done|]. intros [= <-].
  destruct (foldl_max_elem l a) as [->|Hin]; [by left|by right].
Qed.

Lemma padding_inv seqs labels vocab n_classes x y lengths mask :
  padding seqs labels vocab n_classes = Some (x, y, lengths, mask) →
  ∃ maxlen,
    np_max (seq_lengths seqs) = Some maxlen ∧ (0 ≤ maxlen)%Z ∧
    lengths = seq_lengths seqs ∧
    padding_loop 0 seqs labels lengths
      (zeros3 (Z.to_nat maxlen) (length seqs) vocab,
       zeros3 (Z.to_nat maxlen) (length seqs) n_classes,
       zeros2 (Z.to_nat maxlen) (length seqs)) = Some (x, y, mask).
Proof.
  unfold padding. intros H.
  assert (length (seq_lengths seqs) = length seqs) as Hn by apply length_fmap.
  rewrite Hn in H.
  destruct (np_max (seq_lengths seqs)) as [maxlen|] eqn:Hmax; [|done].
  simpl in H. destruct (Z.ltb_spec maxlen 0) as [Hneg|Hpos]; [done|].
  destruct (padding_loop _ _ _ _ _) as [[[x1 y1] mask1]|] eqn:Hloop; [|done].
  simpl in H. inversion H; subst. by exists maxlen.
Qed.

Lemma zeros2_shape T B : is_mat T B (zeros2 T B).
Proof. split; [apply length_replicate|]. apply Forall_replicate, length_replicate. Qed.

Lemma padding_shape seqs labels vocab n_classes x y lengths mask :
  padding seqs labels vocab n_classes = Some (x, y, lengths, mask) →
  ∃ maxlen,
    np_max (seq_lengths seqs) = Some maxlen ∧ (0 ≤ maxlen)%Z ∧
    lengths = seq_lengths seqs ∧
    is_t3 (Z.to_nat maxlen) (length seqs) vocab x ∧
    is_t3 (Z.to_nat maxlen) (length seqs) n_classes y ∧
    is_mat (Z.to_nat maxlen) (length seqs) mask.
Proof.
  intros H. destruct (padding_inv _ _ _ _ _ _ _ _ H) as (maxlen & Hmax & Hpos & Hl & Hloop).
  exists maxlen. repeat split; try done;
    eapply (padding_loop_shape _ _ _ _ _ _ _ _ _ _ _ _ _ _ Hloop);
    auto using zeros3_shape, zeros2_shape.
Qed.

Lemma all_but_last_lookup (seq : patient) (t : nat) :
  all_but_last seq !! t =
  if decide (Z.of_nat t < Z.of_nat (length seq) - 1)%Z then Some (seq !!! t) else None.
Proof.
  unfold all_but_last. rewrite lookup_take. case_decide as H1; case_decide as H2;
    try lia; try done.
  apply list_lookup_lookup_total_lt. lia.
Qed.

Lemma all_but_first_lookup (label : patient) (t : nat) :
  all_but_first label !! t =
  if decide (t + 1 < length label) then Some (label !!! (t + 1)) else None.
Proof.
  unfold all_but_first. rewrite lookup_drop. replace (1 + t) with (t + 1) by lia.
  case_decide as H.
  - by apply list_lookup_lookup_total_lt.
  - apply lookup_ge_None. lia.
Qed.

Lemma sample_at_0 seqs labels i seq label :
  seqs !! i = Some seq → labels !! i = Some label →
  sample_at 0 seqs labels i = Some (seq, label).
Proof.
  intros Hs Hl. unfold sample_at. rewrite decide_True by lia.
  rewrite Nat.sub_0_r, lookup_zip_with, Hs. simpl. by rewrite Hl.
Qed.

(** What [padding] writes for a sample that has a label sequence. *)
Lemma padding_sample seqs labels vocab n_classes x y lengths mask i seq label t :
  padding seqs labels vocab n_classes = Some (x, y, lengths, mask) →
  seqs !! i = Some seq → labels !! i = Some label → t < length x →
  slice x t i =
    Some (if decide (Z.of_nat t < Z.of_nat (length seq) - 1)%Z
          then multi_hot vocab (seq !!! t) else zeros vocab) ∧
  slice y t i =
    Some (if decide (t + 1 < length label)
          then multi_hot n_classes (label !!! (t + 1)) else zeros n_classes) ∧
  entry mask t i =
    Some (if decide (t < slice_stop (length mask) (Z.of_nat (length seq) - 1))
          then 1%R else 0%R) ∧
  length y = length x ∧ length mask = length x.
Proof.
  intros H Hs Hl Ht.
  destruct (padding_shape _ _ _ _ _ _ _ _ H) as (maxlen & Hmax & Hpos & Hlen & Hx & Hy & Hm).
  destruct (padding_inv _ _ _ _ _ _ _ _ H) as (maxlen' & Hmax' & _ & _ & Hloop).
  assert (maxlen' = maxlen) as -> by congruence.
  destruct (padding_loop_spec _ _ _ _ _ _ _ _ _ _ Hloop) as (Sx & Sy & Sm & Slen & _).
  pose proof (lookup_lt_Some _ _ _ Hs) as Hi.
  assert (t < Z.to_nat maxlen) as Ht' by (destruct Hx as [<- _]; done).
  destruct (slice_is_Some _ _ _ _ t i Hx) as (rx & Hrx & _); [done..|].
  destruct (slice_is_Some _ _ _ _ t i Hy) as (ry & Hry & _); [done..|].
  repeat split.
  - rewrite Hrx. rewrite Sx, (sample_at_0 _ _ _ _ _ Hs Hl) in Hrx.
    unfold put_visit in Hrx. rewrite all_but_last_lookup in Hrx.
    rewrite slice_zeros3 in Hrx by done. case_decide.
    + simpl in Hrx. by rewrite (index_put_zeros _ _ _ Hrx).
    + by inversion Hrx.
  - rewrite Hry. rewrite Sy, (sample_at_0 _ _ _ _ _ Hs Hl) in Hry.
    unfold put_visit in Hry. rewrite all_but_first_lookup in Hry.
    rewrite slice_zeros3 in Hry by done. case_decide.
    + simpl in Hry. by rewrite (index_put_zeros _ _ _ Hry).
    + by inversion Hry.
  - rewrite Sm, (sample_at_0 _ _ _ _ _ Hs Hl), Hlen.
    unfold seq_lengths. rewrite list_lookup_fmap, Hs. simpl.
    assert (entry (zeros2 (Z.to_nat maxlen) (length seqs)) t i = Some 0%R) as ->.
    { unfold entry, zeros2, zeros. rewrite lookup_replicate_2 by done. simpl.
      by rewrite lookup_replicate_2. }
    rewrite Slen. by case_decide.
  - destruct Hx as [-> _]. by destruct Hy as [-> _].
  - destruct Hx as [-> _]. by destruct Hm as [-> _].
Qed.
End padding_results.

Section padding_claims.
Implicit Types (x y : T3) (mask : Mat) (seqs labels : list patient).

Lemma padding_loop_total T B n n' idx seqs labels lengths x y mask :
  is_t3 T B n x → is_t3 T B n' y → is_mat T B mask →
  idx + length seqs ≤ B → B ≤ length lengths →
  Forall (Forall (Forall (λ c, c < n))) seqs →
  Forall (Forall (Forall (λ c, c < n'))) labels →
  is_Some (padding_loop idx seqs labels lengths (x, y, mask)).
Proof.
  revert labels idx x y mask.
  induction seqs as [|seq seqs IH]; intros labels idx x y mask Hx Hy Hm HB HL Hs Hl.
  { by eexists. }
  destruct labels as [|label labels]; [by eexists|]. simpl in *.
  apply Forall_cons in Hs as [Hseq Hs]. apply Forall_cons in Hl as [Hlabel Hl].
  destruct (scatter_total T B n x idx (all_but_last seq)) as [x1 Hx1];
    [done|lia|by apply Forall_take|].
  destruct (scatter_total T B n' y idx (all_but_first label)) as [y1 Hy1];
    [done|lia|by apply Forall_drop|].
  rewrite Hx1, Hy1. simpl.
  destruct (lookup_lt_is_Some_2 lengths idx) as [len ->]; [lia|]. simpl.
  apply IH; try done; try lia.
  - by eapply scatter_shape.
  - by eapply scatter_shape.
  - by apply mask_put_shape.
Qed.

(** [padding] returns a result on every non-empty batch that holds a
    non-empty sequence and whose codes are inside the vocabularies. *)
Lemma padding_returns seqs labels vocab n_classes seq0 :
  seq0 ∈ seqs → seq0 ≠ [] →
  Forall (Forall (Forall (λ c, c < vocab))) seqs →
  Forall (Forall (Forall (λ c, c < n_classes))) labels →
  is_Some (padding seqs labels vocab n_classes).
Proof.
  intros Hin Hne Hs Hl. unfold padding.
  assert (length (seq_lengths seqs) = length seqs) as Hn by apply length_fmap.
  rewrite Hn.
  destruct (np_max (seq_lengths seqs)) as [maxlen|] eqn:Hmax.
  2:{ destruct seqs; [by apply elem_of_nil in Hin|done]. }
  simpl. assert (0 ≤ maxlen)%Z as Hpos.
  { assert ((Z.of_nat (length seq0) - 1)%Z ∈ seq_lengths seqs) as Hin'.
    { unfold seq_lengths. apply list_elem_of_fmap. by exists seq0. }
    pose proof (np_max_ge _ _ _ Hmax Hin'). destruct seq0; [done|]. simpl in *. lia. }
  destruct (Z.ltb_spec maxlen 0) as [?|_]; [lia|].
  destruct (padding_loop_total (Z.to_nat maxlen) (length seqs) vocab n_classes 0
              seqs labels (seq_lengths seqs)
              (zeros3 (Z.to_nat maxlen) (length seqs) vocab)
              (zeros3 (Z.to_nat maxlen) (length seqs) n_classes)
              (zeros2 (Z.to_nat maxlen) (length seqs)))
    as [[[x1 y1] m1] ->]; auto using zeros3_shape, zeros2_shape; lia.
Qed.

Lemma mask_column_fmap mask i (f : nat → R) off :
  (∀ t, t < length mask → entry mask t i = Some (f (off + t))) →
  mask_column mask i = f <$> seq off (length mask).
Proof.
  revert off. induction mask as [|row mask IH]; intros off H; [done|].
  unfold mask_column. simpl.
  pose proof (H 0 ltac:(simpl; lia)) as H0. unfold entry in H0. simpl in H0.
  rewrite H0, Nat.add_0_r. f_equal. apply IH. intros t Ht.
  specialize (H (S t) ltac:(simpl; lia)). unfold entry in *. simpl in H.
  rewrite H. do 2 f_equal. lia.
Qed.

Lemma count_ones_prefix (k off n : nat) :
  count_ones ((λ t, if decide (t < k) then 1%R else 0%R) <$> seq off n) =
  Nat.min (off + n) k - off.
Proof.
  unfold count_ones. revert off. induction n as [|n IH]; intros off; simpl.
  - lia.
  - case_decide as Hk.
    + rewrite filter_cons_True by done. simpl. rewrite IH. lia.
    + rewrite filter_cons_False by (intros Heq; symmetry in Heq; by apply R1_neq_R0 in Heq).
      rewrite IH. lia.
Qed.

(** C5 (amended): for every batch and every sample with a label
    sequence whose own sequence has at least one visit, the mask entry
    [mask[t, i]] is 1 exactly for [t < len(seqs[i]) - 1] and 0 for the
    other timesteps, and the number of ones in the sample's mask column
    is [len(seqs[i]) - 1]. *)
Theorem padding_mask_nonempty seqs labels vocab n_classes x y lengths mask i seq :
  padding seqs labels vocab n_classes = Some (x, y, lengths, mask) →
  seqs !! i = Some seq → i < length labels → seq ≠ [] →
  (∀ t, t < length mask →
     entry mask t i =
     Some (if decide (Z.of_nat t < Z.of_nat (length seq) - 1)%Z then 1%R else 0%R)) ∧
  Z.of_nat (count_ones (mask_column mask i)) = (Z.of_nat (length seq) - 1)%Z.
Proof.
  intros H Hs Hi Hne.
  destruct (lookup_lt_is_Some_2 labels i Hi) as [label Hl].
  destruct (padding_shape _ _ _ _ _ _ _ _ H) as (maxlen & Hmax & Hpos & Hlen & Hx & _ & Hm).
  assert (0 ≤ Z.of_nat (length seq) - 1 ≤ Z.of_nat (length mask))%Z as Hrange.
  { split; [destruct seq; [done|simpl; lia]|].
    destruct Hm as [-> _]. rewrite Z2Nat.id by done.
    apply (np_max_ge _ _ _ Hmax). unfold seq_lengths. apply list_elem_of_fmap.
    exists seq. split; [done|]. by eapply list_elem_of_lookup_2. }
  assert (∀ t, t < length mask →
     entry mask t i =
     Some (if decide (t < Z.to_nat (Z.of_nat (length seq) - 1)) then 1%R else 0%R))
    as Hentry.
  { intros t Ht.
    destruct (padding_sample _ _ _ _ _ _ _ _ i seq label t H Hs Hl)
      as (_ & _ & He & _ & Hml); [destruct Hx as [-> _]; by destruct Hm as [<- _]|].
    by rewrite He, slice_stop_nonneg. }
  split.
  - intros t Ht. rewrite Hentry by done. f_equal.
    case_decide; case_decide; try done; lia.
  - rewrite (mask_column_fmap mask i
               (λ t, if decide (t < Z.to_nat (Z.of_nat (length seq) - 1))
                     then 1%R else 0%R) 0) by done.
    rewrite count_ones_prefix. lia.
Qed.

(** C6 (amended): the tensors have [maxlen] timesteps, the largest
    [len(seq) - 1] of the batch, so every visit but the last of every
    sequence has a timestep.  For every sample [i] (a sequence with its
    label sequence) and every timestep [t] of the tensors, [x[t, i, :]] is
    the multi-hot encoding of visit [t] of [seqs[i]] when
    [t < len(seqs[i]) - 1] and all-zero otherwise, and [y[t, i, :]] is the
    multi-hot encoding of visit [t + 1] of [labels[i]] when that visit
    exists, [t + 1 < len(labels[i])], and all-zero otherwise.  When
    [labels[i]] has as many visits as [seqs[i]], visit [t + 1] exists
    exactly for [t < len(seqs[i]) - 1]. *)
Theorem padding_teacher_shift seqs labels vocab n_classes x y lengths mask
    i seq label t :
  padding seqs labels vocab n_classes = Some (x, y, lengths, mask) →
  seqs !! i = Some seq → labels !! i = Some label → t < length x →
  slice x t i =
    Some (if decide (Z.of_nat t < Z.of_nat (length seq) - 1)%Z
          then multi_hot vocab (seq !!! t) else zeros vocab) ∧
  slice y t i =
    Some (if decide (t + 1 < length label)
          then multi_hot n_classes (label !!! (t + 1)) else zeros n_classes) ∧
  length y = length x ∧
  (∀ j (seq' : patient), seqs !! j = Some seq' →
     (Z.of_nat (length seq') - 1 ≤ Z.of_nat (length x))%Z) ∧
  (∃ j (seq' : patient), seqs !! j = Some seq' ∧
     (Z.of_nat (length x) = Z.of_nat (length seq') - 1)%Z) ∧
  (length label = length seq →
   (t + 1 < length label ↔ (Z.of_nat t < Z.of_nat (length seq) - 1)%Z)).
Proof.
  intros H Hs Hl Ht.
  destruct (padding_sample _ _ _ _ _ _ _ _ i seq label t H Hs Hl Ht)
    as (Hx & Hy & _ & Hlen & _).
  destruct (padding_shape _ _ _ _ _ _ _ _ H) as (maxlen & Hmax & Hpos & _ & [HT _] & _).
  split; [done|]. split; [done|]. split; [done|]. split; [|split].
  - intros j seq' Hj. rewrite HT, Z2Nat.id by done.
    apply (np_max_ge _ _ _ Hmax). unfold seq_lengths. apply list_elem_of_fmap.
    exists seq'. split; [done|]. by eapply list_elem_of_lookup_2.
  - pose proof (np_max_elem _ _ Hmax) as Hin. unfold seq_lengths in Hin.
    apply list_elem_of_fmap in Hin as (seq' & Heq & Hin).
    apply list_elem_of_lookup in Hin as [j Hj].
    exists j, seq'. split; [done|]. rewrite HT, Z2Nat.id by done. done.
  - lia.
Qed.

(** C6 as stated fails when a label sequence is longer than its own
    sequence: with a one-visit [seqs[0]] no timestep is valid for sample
    0, yet [y[0, 0, :]] encodes visit 1 of the three-visit [labels[0]]. *)
Lemma padding_longer_labels :
  ¬ (∀ (x y : T3) lengths (mask : Mat) i (seq : patient) t,
       padding [[[0]]; [[0];[0];[0]]] [[[0];[0];[0]]; [[0];[0];[0]]] 1 1
         = Some (x, y, lengths, mask) →
       [[[0]]; [[0];[0];[0]]] !! i = Some seq → t < length y →
       ¬ (Z.of_nat t < Z.of_nat (length seq) - 1)%Z →
       slice y t i = Some (zeros 1)).
Proof.
  intros H.
  assert (padding [[[0]]; [[0];[0];[0]]] [[[0];[0];[0]]; [[0];[0];[0]]] 1 1
          = Some ([[[0]; [1]]; [[0]; [1]]], [[[1]; [1]]; [[1]; [1]]],
                  [0; 2]%Z, [[0; 1]; [0; 1]])%R) as Hpad
    by (vm_compute; reflexivity).
  specialize (H _ _ _ _ 0 [[0]] 0 Hpad eq_refl ltac:(simpl; lia) ltac:(simpl; lia)).
  vm_compute in H. inversion H as [H1]. by apply R1_neq_R0 in H1.
Qed.
End padding_claims.

Lemma padding_teacher_shift_witness :
  slice [[[1;0;0]; [0;0;1]]; [[0;1;1]; [0;0;0]]]%R 1 0 = Some (multi_hot 3 [1; 2]) ∧
  slice [[[0;1;1]; [0;0;1]]; [[1;0;0]; [0;0;0]]]%R 1 0 = Some (multi_hot 3 [0]).
Proof.
  destruct (padding_teacher_shift
    [[[0];[1;2];[0]]; [[2];[2]]] [[[0];[1;2];[0]]; [[2];[2]]] 3 3
    [[[1;0;0]; [0;0;1]]; [[0;1;1]; [0;0;0]]]%R
    [[[0;1;1]; [0;0;1]]; [[1;0;0]; [0;0;0]]]%R
    [2; 1]%Z [[1;1]; [1;0]]%R 0 [[0];[1;2];[0]] [[0];[1;2];[0]] 1)
    as (Hx & Hy & _); [vm_compute; reflexivity|reflexivity|reflexivity|simpl; lia|].
  split; [exact Hx|exact Hy].
Defined.

Lemma padding_mask_nonempty_witness :
  entry [[1;1]; [1;0]]%R 1 1 = Some 0%R ∧
  Z.of_nat (count_ones (mask_column [[1;1]; [1;0]]%R 1)) = 1%Z.
Proof.
  destruct (padding_mask_nonempty
    [[[0];[1;2];[0]]; [[2];[2]]] [[[0];[1;2];[0]]; [[2];[2]]] 3 3
    [[[1;0;0]; [0;0;1]]; [[0;1;1]; [0;0;0]]]%R
    [[[0;1;1]; [0;0;1]]; [[1;0;0]; [0;0;0]]]%R
    [2; 1]%Z [[1;1]; [1;0]]%R 1 [[2];[2]])
    as (He & Hc); [vm_compute; reflexivity|reflexivity|simpl; lia|done|].
  split; [apply (He 1); simpl; lia|exact Hc].
Defined.

(** C5 as stated fails on a batch that holds an empty sequence: its
    length entry is [-1], and the slice [mask[:-1, 0]] covers every row but
    the last, so [mask[0, 0]] is 1 although [0 < len(seqs[0]) - 1] is
    false. *)
Lemma padding_mask_empty_sequence :
  ¬ (∀ x y lengths mask i seq t,
       padding [[]; [[0];[0];[0]]] [[]; [[0];[0];[0]]] 1 1 = Some (x, y, lengths, mask) →
       [[]; [[0];[0];[0]]] !! i = Some seq → t < length mask →
       entry mask t i =
       Some (if decide (Z.of_nat t < Z.of_nat (length seq) - 1)%Z then 1%R else 0%R)).
Proof.
  intros H.
  specialize (H _ _ _ _ 0 [] 0 padding_empty_seq eq_refl ltac:(simpl; lia)).
  vm_compute in H. inversion H as [H1]. by apply R1_neq_R0 in H1.
Qed.

(** ** Lemmas on the tensor primitives *)

Section tensor_lemmas.
Local Open Scope R_scope.
Implicit Types (A W : Mat) (row bias v : Vec) (n B j b : nat).

Lemma is_mat_lookup B n A b row :
  is_mat B n A → A !! b = Some row → length row = n.
Proof. intros [_ H] Hb. by eapply (proj1 (Forall_lookup _ _) H). Qed.

Lemma length_vadd v1 v2 n :
  length v1 = n → length v2 = n → length (vadd v1 v2) = n.
Proof. intros H1 H2. unfold vadd. rewrite length_zip_with. lia. Qed.

Lemma length_vecmat n row W :
  Forall (λ r, length r = n) W → length (vecmat n row W) = n.
Proof.
  unfold vecmat. intros HW. revert row.
  induction HW as [|Wk W Hk HW IH]; intros row.
  - destruct row; simpl; apply length_replicate.
  - destruct row as [|a row]; simpl; [apply length_replicate|].
    apply length_vadd; [|apply IH]. unfold scale. by rewrite length_fmap.
Qed.

Lemma vecmat_lookup n row W j :
  Forall (λ r, length r = n) W → (j < n)%nat →
  vecmat n row W !! j = Some (EHRNN.dot row W j).
Proof.
  unfold vecmat, EHRNN.dot. intros HW Hj. revert row.
  induction HW as [|Wk W Hk HW IH]; intros row.
  - destruct row; simpl; unfold zeros; by rewrite lookup_replicate_2.
  - destruct row as [|a row]; simpl; [unfold zeros; by rewrite lookup_replicate_2|].
    unfold vadd at 1. rewrite lookup_zip_with, IH. unfold scale.
    rewrite list_lookup_fmap.
    destruct (lookup_lt_is_Some_2 Wk j) as [w Hw]; [lia|].
    rewrite Hw. simpl. by rewrite (list_lookup_total_correct _ _ _ Hw).
Qed.

Lemma matmul_shape n A W B :
  Forall (λ r, length r = n) W → length A = B → is_mat B n (matmul n A W).
Proof.
  intros HW HA. unfold matmul. split; [by rewrite length_fmap|].
  apply Forall_fmap, Forall_forall. intros row _. simpl. by apply length_vecmat.
Qed.

Lemma zip_with_shape (f : R → R → R) B n A A' :
  is_mat B n A → is_mat B n A' → is_mat B n (zip_with (zip_with f) A A').
Proof.
  intros [H1 H2] [H3 H4]. split; [rewrite length_zip_with; lia|].
  apply Forall_lookup. intros i r Hr.
  apply lookup_zip_with_Some in Hr as (r1 & r2 & -> & Hr1 & Hr2).
  rewrite length_zip_with.
  rewrite (proj1 (Forall_lookup _ _) H2 _ _ Hr1), (proj1 (Forall_lookup _ _) H4 _ _ Hr2).
  lia.
Qed.

Lemma madd_shape B n A A' : is_mat B n A → is_mat B n A' → is_mat B n (madd A A').
Proof. apply zip_with_shape. Qed.

Lemma mmul_shape B n A A' : is_mat B n A → is_mat B n A' → is_mat B n (mmul A A').
Proof. apply zip_with_shape. Qed.

Lemma mmap_shape f B n A : is_mat B n A → is_mat B n (mmap f A).
Proof.
  intros [H1 H2]. unfold mmap. split; [by rewrite length_fmap|].
  apply Forall_fmap. eapply Forall_impl; [done|]. intros r Hr. simpl.
  by rewrite length_fmap.
Qed.

Lemma madd_bias_shape B n A bias :
  is_mat B n A → length bias = n → is_mat B n (madd_bias A bias).
Proof.
  intros [H1 H2] Hb. unfold madd_bias. split; [by rewrite length_fmap|].
  apply Forall_fmap. eapply Forall_impl; [done|]. intros r Hr. simpl.
  by apply length_vadd.
Qed.

(** Entries of the element-wise operations. *)
Lemma entry_zip_with (f : R → R → R) A A' b j :
  entry (zip_with (zip_with f) A A') b j =
  entry A b j ≫= λ a, entry A' b j ≫= λ a', Some (f a a').
Proof.
  unfold entry. rewrite lookup_zip_with.
  destruct (A !! b) as [r|]; simpl; [|done].
  destruct (A' !! b) as [r'|]; simpl; [by rewrite lookup_zip_with|].
  by destruct (r !! j).
Qed.

Lemma entry_mmap f A b j : entry (mmap f A) b j = f <$> entry A b j.
Proof.
  unfold entry, mmap. rewrite list_lookup_fmap.
  destruct (A !! b) as [r|]; simpl; [|done]. by rewrite list_lookup_fmap.
Qed.

Lemma entry_madd_bias A bias b j :
  entry (madd_bias A bias) b j =
  entry A b j ≫= λ a, bias !! j ≫= λ c, Some (a + c).
Proof.
  unfold entry, madd_bias. rewrite list_lookup_fmap.
  destruct (A !! b) as [r|]; simpl; [|done]. unfold vadd. by rewrite lookup_zip_with.
Qed.

Lemma entry_matmul n A W b j :
  Forall (λ r, length r = n) W → (j < n)%nat →
  entry (matmul n A W) b j = (λ row, EHRNN.dot row W j) <$> A !! b.
Proof.
  intros HW Hj. unfold entry, matmul. rewrite list_lookup_fmap.
  destruct (A !! b) as [r|]; simpl; [|done]. by apply vecmat_lookup.
Qed.

(** A row is determined by its entries. *)
Lemma row_of_entries A B n b (f : nat → R) :
  is_mat B n A → (b < B)%nat →
  (∀ k, (k < n)%nat → entry A b k = Some (f k)) →
  A !! b = Some (f <$> seq 0 n).
Proof.
  intros HA Hb H. destruct HA as [HB Hrows].
  destruct (lookup_lt_is_Some_2 A b) as [r Hr]; [lia|]. rewrite Hr. f_equal.
  pose proof (proj1 (Forall_lookup _ _) Hrows _ _ Hr) as Hlen. simpl in Hlen.
  apply list_eq. intros k. rewrite list_lookup_fmap.
  destruct (decide (k < n)%nat) as [Hk|Hk].
  - rewrite lookup_seq_lt by done. simpl. specialize (H k Hk).
    unfold entry in H. by rewrite Hr in H.
  - rewrite (proj2 (lookup_ge_None r k)) by lia.
    by rewrite (proj2 (lookup_ge_None (seq 0 n) k)) by (rewrite length_seq; lia).
Qed.
End tensor_lemmas.

(** ** The GRU cell *)

Section gru_cell.
Local Open Scope R_scope.
Import EHRNN.
Implicit Types (self : EHRNN.t) (emb h : Mat).

Lemma gate_shape self (f : R → R) emb h B (W U : Mat) (bias : Vec) :
  is_mat (embSize self) (hiddenDimSize self) W →
  is_mat (hiddenDimSize self) (hiddenDimSize self) U →
  length bias = hiddenDimSize self →
  length emb = B → length h = B →
  is_mat B (hiddenDimSize self)
    (mmap f (madd_bias (madd (matmul (hiddenDimSize self) emb W)
                             (matmul (hiddenDimSize self) h U)) bias)).
Proof.
  intros [_ HW] [_ HU] Hb He Hh.
  apply mmap_shape, madd_bias_shape; [|done].
  apply madd_shape; by apply matmul_shape.
Qed.

Lemma gate_entry self (f : R → R) emb h (W U : Mat) (bias : Vec) b j emb_b h_b :
  is_mat (embSize self) (hiddenDimSize self) W →
  is_mat (hiddenDimSize self) (hiddenDimSize self) U →
  length bias = hiddenDimSize self →
  emb !! b = Some emb_b → h !! b = Some h_b → (j < hiddenDimSize self)%nat →
  entry (mmap f (madd_bias (madd (matmul (hiddenDimSize self) emb W)
                                 (matmul (hiddenDimSize self) h U)) bias)) b j =
  Some (f (dot emb_b W j + dot h_b U j + bias !!! j)).
Proof.
  intros [_ HW] [_ HU] Hb He Hh Hj.
  rewrite entry_mmap, entry_madd_bias. unfold madd, vadd.
  rewrite entry_zip_with, !entry_matmul, He, Hh by done. simpl.
  by rewrite (list_lookup_lookup_total_lt bias j) by lia.
Qed.

Lemma EHRNN_forward_shape self emb h B :
  EHRNN.wf self → length emb = B → is_mat B (hiddenDimSize self) h →
  is_mat B (hiddenDimSize self) (EHRNN.forward self emb h).
Proof.
  intros (Wz & Wr & Wh & Uz & Ur & Uh & bz & br & bh) He Hh.
  pose proof (proj1 Hh) as Hlen. unfold EHRNN.forward.
  apply madd_shape; apply mmul_shape; try done.
  - by apply gate_shape.
  - by apply mmap_shape, gate_shape.
  - apply gate_shape; try done.
    assert (is_mat B (hiddenDimSize self)
      (mmul (mmap sigmoid (madd_bias (madd (matmul (hiddenDimSize self) emb (W_r self))
         (matmul (hiddenDimSize self) h (U_r self))) (b_r self))) h)) as [-> _]; [|done].
    apply mmul_shape; [by apply gate_shape|done].
Qed.

Lemma vmul_fmap_seq (f : nat → R) (v : Vec) n :
  length v = n → vmul (f <$> seq 0 n) v = imap (λ k hk, f k * hk) v.
Proof.
  intros Hn. apply list_eq. intros k. unfold vmul.
  rewrite lookup_zip_with, list_lookup_fmap, list_lookup_imap.
  destruct (v !! k) as [hk|] eqn:Hk; simpl.
  - rewrite lookup_seq_lt by (apply lookup_lt_Some in Hk; lia). done.
  - by destruct (seq 0 n !! k).
Qed.

(** C7: for conforming [emb] and [h], entry [(b, j)] of the state
    returned by [EHRNN.forward] is [z * h + (1 - z) * h~] with the update
    gate [z], the reset gate [r] and the candidate [h~] of the GRU
    recurrence. *)
Theorem EHRNN_forward_gru self emb h B b j emb_b h_b :
  EHRNN.wf self →
  is_mat B (embSize self) emb → is_mat B (hiddenDimSize self) h →
  emb !! b = Some emb_b → h !! b = Some h_b → (j < hiddenDimSize self)%nat →
  entry (EHRNN.forward self emb h) b j = Some (gru_spec self emb_b h_b j).
Proof.
  intros (Wz & Wr & Wh & Uz & Ur & Uh & bz & br & bh) Hemb Hh He Hb Hj.
  pose proof (proj1 Hemb) as Hlen_e. pose proof (proj1 Hh) as Hlen_h.
  pose proof (lookup_lt_Some _ _ _ Hb) as HbB. rewrite Hlen_h in HbB.
  pose proof (is_mat_lookup _ _ _ _ _ Hh Hb) as Hlen_hb.
  unfold EHRNN.forward.
  set (n := hiddenDimSize self) in *.
  set (z := mmap sigmoid (madd_bias (madd (matmul n emb (W_z self))
                                          (matmul n h (U_z self))) (b_z self))).
  set (r := mmap sigmoid (madd_bias (madd (matmul n emb (W_r self))
                                          (matmul n h (U_r self))) (b_r self))).
  assert (∀ k, (k < n)%nat → entry z b k = Some (gru_z self emb_b h_b k)) as Hz.
  { intros k Hk. unfold z, gru_z. by apply gate_entry. }
  assert (∀ k, (k < n)%nat → entry r b k = Some (gru_r self emb_b h_b k)) as Hr.
  { intros k Hk. unfold r, gru_r. by apply gate_entry. }
  assert (is_mat B n r) as Hrs by (by apply gate_shape).
  assert (mmul r h !! b = Some (imap (λ k hk, gru_r self emb_b h_b k * hk) h_b)) as Hrh.
  { unfold mmul. rewrite lookup_zip_with.
    rewrite (row_of_entries r B n b (gru_r self emb_b h_b)) by done.
    simpl. rewrite Hb. simpl. by rewrite vmul_fmap_seq. }
  set (h_tilde := mmap tanh (madd_bias (madd (matmul n emb (W_h self))
                              (matmul n (mmul r h) (U_h self))) (b_h self))).
  assert (entry h_tilde b j = Some (gru_h_tilde self emb_b h_b j)) as Ht.
  { unfold h_tilde, gru_h_tilde. by apply gate_entry. }
  unfold madd, vadd, mmul, vmul. rewrite !entry_zip_with.
  rewrite entry_mmap, Hz, Ht by done. simpl.
  unfold entry at 1. rewrite Hb. simpl.
  rewrite (list_lookup_lookup_total_lt h_b j) by lia. done.
Qed.
End gru_cell.

(** ** Shapes through the network *)

Section network_shapes.
Local Open Scope R_scope.
Import build_EHRNN.
Implicit Types (self : build_EHRNN.t) (x y : T3) (mask h : Mat) (g : RNG).

Lemma table_shape (f : nat → nat → R) rows cols :
  is_mat rows cols ((λ i, (λ j, f i j) <$> seq 0 cols) <$> seq 0 rows).
Proof.
  split; [by rewrite length_fmap, length_seq|].
  apply Forall_fmap, Forall_forall. intros i _. simpl.
  by rewrite length_fmap, length_seq.
Qed.

Lemma randn_shape rows cols g : is_mat rows cols (randn rows cols g).1.
Proof. unfold randn. simpl. apply table_shape. Qed.

Lemma EHRNN_init_wf i hd e bs c g :
  EHRNN.wf (EHRNN.__init__ i hd e bs c g).1 ∧
  EHRNN.hiddenDimSize (EHRNN.__init__ i hd e bs c g).1 = hd ∧
  EHRNN.embSize (EHRNN.__init__ i hd e bs c g).1 = e.
Proof.
  unfold EHRNN.__init__, EHRNN.wf. simpl.
  repeat split; try apply length_replicate;
    by rewrite ?length_fmap, ?length_seq;
       try (apply Forall_fmap, Forall_forall; intros ? _; simpl;
            by rewrite length_fmap, length_seq).
Qed.

Lemma time_loop_shape rnn (input_values : list Mat) h B :
  EHRNN.wf rnn → Forall (λ m : Mat, length m = B) input_values →
  is_mat B (EHRNN.hiddenDimSize rnn) h →
  length (time_loop rnn input_values h).1 = length input_values ∧
  Forall (is_mat B (EHRNN.hiddenDimSize rnn)) (time_loop rnn input_values h).1.
Proof.
  intros Hwf Hin. revert h. induction Hin as [|m ms Hm Hms IH]; intros h Hh; simpl.
  - by split.
  - pose proof (EHRNN_forward_shape rnn m h B Hwf Hm Hh) as Hstep.
    destruct (IH _ Hstep) as [IH1 IH2].
    destruct (time_loop rnn ms (EHRNN.forward rnn m h)) as [hs hl]. simpl in *.
    split; [by f_equal|by constructor].
Qed.

Lemma drop_mat_shape keep pos (m : Mat) B n :
  is_mat B n m → is_mat B n (drop_mat keep pos m).1.
Proof.
  intros [<- Hrows]. revert pos. induction Hrows as [|v m Hv Hrows IH]; intros pos; simpl.
  - by split.
  - specialize (IH (pos + length v)%nat).
    destruct (drop_mat keep (pos + length v) m) as [r pos']. simpl in *.
    destruct IH as [IH1 IH2]. split; [simpl; by f_equal|].
    constructor; [|done]. unfold drop_vec. by rewrite length_imap.
Qed.

Lemma drop_t3_shape keep pos x T B n :
  is_t3 T B n x → is_t3 T B n (drop_t3 keep pos x).1.
Proof.
  intros [<- Hall]. revert pos. induction Hall as [|m x Hm Hall IH]; intros pos; simpl.
  - by split.
  - pose proof (drop_mat_shape keep pos m B n Hm) as Hm1.
    destruct (drop_mat keep pos m) as [m1 pos1]. specialize (IH pos1).
    destruct (drop_t3 keep pos1 x) as [r pos2]. simpl in *.
    destruct IH as [IH1 IH2]. split; [simpl; by f_equal|by constructor].
Qed.

Lemma dropout_shape training x g T B n :
  is_t3 T B n x → is_t3 T B n (dropout training x g).1.
Proof.
  intros Hx. unfold dropout. destruct training; [|done].
  pose proof (drop_t3_shape (bern g) (bpos g) x T B n Hx) as H.
  by destruct (drop_t3 (bern g) (bpos g) x).
Qed.

Lemma layer_pass_shape self input_values h g hidden_state h' g' :
  layer_pass self (hiddenDimSize self) input_values h g = Some (hidden_state, h', g') →
  Forall (λ m : Mat, length m = batchSize self) input_values →
  input_values ≠ [] ∧
  is_t3 (length input_values) (batchSize self) (hiddenDimSize self) hidden_state.
Proof.
  unfold layer_pass. intros H Hin.
  pose proof (EHRNN_init_wf (inputDimSize self) (hiddenDimSize self)
                (embSize self) (batchSize self) (numClass self) g) as (Hwf & Hhd & _).
  destruct (EHRNN.__init__ _ _ _ _ _ g) as [rnn g1]. simpl in Hwf, Hhd.
  pose proof (time_loop_shape rnn input_values (init_hidden self) (batchSize self)
                Hwf Hin) as Hloop.
  rewrite Hhd in Hloop. specialize (Hloop (zeros2_shape _ _)).
  destruct (time_loop rnn input_values (init_hidden self)) as [hs hl].
  simpl in Hloop. destruct Hloop as [Hlen Hall].
  destruct hs as [|m hs]; [done|]. simpl in H.
  pose proof (dropout_shape (training self) (m :: hs) g1 (length input_values)
                (batchSize self) (hiddenDimSize self) (conj Hlen Hall)) as Hd.
  destruct (dropout (training self) (m :: hs) g1) as [hs' g2].
  inversion H; subst. split; [|done]. by destruct input_values.
Qed.

Lemma layer_pass_returns self hiddenSize input_values h g :
  input_values ≠ [] → is_Some (layer_pass self hiddenSize input_values h g).
Proof.
  intros Hne. unfold layer_pass.
  destruct (EHRNN.__init__ _ _ _ _ _ g) as [rnn g1].
  destruct input_values as [|m ms]; [done|]. simpl.
  destruct (time_loop rnn ms _) as [hs hl]. simpl.
  destruct (dropout _ _ _). by eexists.
Qed.

Lemma is_t3_rows T B n x : is_t3 T B n x → Forall (λ m : Mat, length m = B) x.
Proof. intros [_ H]. eapply Forall_impl; [done|]. by intros m [? _]. Qed.

Lemma hidden_states_shape self x h g hidden_state g' :
  hidden_states self x h g = Some (hidden_state, g') →
  Forall (λ m : Mat, length m = batchSize self) x →
  x ≠ [] ∧ is_t3 (length x) (batchSize self) (hiddenDimSize self) hidden_state.
Proof.
  unfold hidden_states. intros H Hx. simpl in H.
  set (emb := tmap tanh _) in H.
  assert (length emb = length x) as Hlen.
  { unfold emb, tmap, tadd_bias, tmatmul. by rewrite !length_fmap. }
  assert (Forall (λ m : Mat, length m = batchSize self) emb) as Hemb.
  { unfold emb, tmap, tadd_bias, tmatmul. rewrite <- !list_fmap_compose.
    apply Forall_fmap. eapply Forall_impl; [done|]. intros m Hm. simpl.
    unfold mmap, madd_bias, matmul. by rewrite !length_fmap. }
  destruct (layer_pass self (hiddenDimSize self) emb h g) as [[[hs1 h1] g1]|] eqn:H1;
    [|done]. simpl in H.
  destruct (layer_pass_shape _ _ _ _ _ _ _ H1 Hemb) as [Hne1 Hs1].
  destruct (layer_pass self (hiddenDimSize self) hs1 h1 g1) as [[[hs2 h2] g2]|] eqn:H2;
    [|done]. simpl in H. inversion H; subst.
  destruct (layer_pass_shape _ _ _ _ _ _ _ H2 (is_t3_rows _ _ _ _ Hs1)) as [_ Hs2].
  split; [destruct x; [by destruct emb|done]|].
  destruct Hs1 as [Hl1 _]. by rewrite Hl1, Hlen in Hs2.
Qed.

Lemma hidden_states_returns self x h g :
  x ≠ [] → is_Some (hidden_states self x h g).
Proof.
  intros Hx. unfold hidden_states. simpl. set (emb := tmap tanh _).
  assert (emb ≠ []) as Hemb by (by destruct x).
  destruct (layer_pass_returns self (hiddenDimSize self) emb h g Hemb)
    as [[[hs1 h1] g1] H1].
  rewrite H1. simpl.
  assert (hs1 ≠ []) as Hne1.
  { unfold layer_pass in H1. destruct (EHRNN.__init__ _ _ _ _ _ g) as [rnn ga].
    destruct emb as [|m ms]; [done|]. simpl in H1.
    destruct (time_loop rnn ms _) as [hs hl]. simpl in H1.
    unfold dropout in H1. destruct (training self).
    - simpl in H1. destruct (drop_mat _ _ _). destruct (drop_t3 _ _ _).
      by inversion H1.
    - by inversion H1. }
  destruct (layer_pass_returns self (hiddenDimSize self) hs1 h1 g1 Hne1)
    as [[[hs2 h2] g2] H2].
  rewrite H2. simpl. by eexists.
Qed.
End network_shapes.

(** ** The output head and the loss *)

Section network_output.
Local Open Scope R_scope.
Import build_EHRNN.
Implicit Types (self : build_EHRNN.t) (x y yhat ce : T3) (mask h m : Mat) (g : RNG).

Lemma length_foldl_vadd (v : Vec) (vs : list Vec) n :
  length v = n → Forall (λ r, length r = n) vs → length (foldl vadd v vs) = n.
Proof.
  intros Hv Hvs. revert v Hv. induction Hvs as [|u vs Hu Hvs IH]; intros v Hv; simpl.
  - done.
  - apply IH. by apply length_vadd.
Qed.

Lemma softmax_slice_shape B C m : is_mat B C m → is_mat B C (softmax_slice m).
Proof.
  intros Hm. unfold softmax_slice.
  pose proof (mmap_shape exp B C m Hm) as [He1 He2].
  split; [by rewrite length_fmap|].
  apply Forall_fmap, Forall_lookup. intros i row Hrow. simpl.
  rewrite length_zip_with.
  pose proof (proj1 (Forall_lookup _ _) He2 _ _ Hrow) as Hlen. simpl in Hlen.
  destruct (mmap exp m) as [|v vs] eqn:Hmm; [done|]. simpl.
  apply Forall_cons in He2 as [Hv Hvs].
  rewrite (length_foldl_vadd v vs C) by done. lia.
Qed.

Lemma probabilities_shape self hidden_state T B :
  build_EHRNN.wf self → Forall (λ m : Mat, length m = B) hidden_state →
  length hidden_state = T →
  is_t3 T B (numClass self) (probabilities self hidden_state).
Proof.
  intros (_ & _ & [_ HW] & Hb) Hrows HT. unfold probabilities, softmax_dim1.
  unfold tadd_bias, tmatmul. rewrite <- !list_fmap_compose.
  split; [by rewrite length_fmap|].
  apply Forall_fmap. eapply Forall_impl; [done|]. intros m Hm. simpl.
  apply softmax_slice_shape, madd_bias_shape; [|done]. by apply matmul_shape.
Qed.

Lemma apply_mask_shape yhat mask T B C :
  is_t3 T B C yhat → is_mat T B mask → is_t3 T B C (apply_mask yhat mask).
Proof.
  intros [HT Hall] [HmT Hrows]. unfold apply_mask.
  split; [rewrite length_zip_with; lia|].
  apply Forall_lookup. intros t r Hr.
  apply lookup_zip_with_Some in Hr as (m & mrow & -> & Hm & Hmrow).
  pose proof (proj1 (Forall_lookup _ _) Hall _ _ Hm) as [HB HC].
  pose proof (proj1 (Forall_lookup _ _) Hrows _ _ Hmrow) as HmB. simpl in HmB.
  split; [rewrite length_zip_with; lia|].
  apply Forall_lookup. intros b v Hv.
  apply lookup_zip_with_Some in Hv as (v0 & mk & -> & Hv0 & _).
  rewrite length_fmap. by eapply (proj1 (Forall_lookup _ _) HC).
Qed.

Lemma zip_with3_shape (f : R → R → R) y yhat T B C :
  is_t3 T B C y → is_t3 T B C yhat →
  is_t3 T B C (zip_with (zip_with (zip_with f)) y yhat).
Proof.
  intros [H1 H2] [H3 H4]. split; [rewrite length_zip_with; lia|].
  apply Forall_lookup. intros t r Hr.
  apply lookup_zip_with_Some in Hr as (m1 & m2 & -> & Hm1 & Hm2).
  apply zip_with_shape.
  - by eapply (proj1 (Forall_lookup _ _) H2).
  - by eapply (proj1 (Forall_lookup _ _) H4).
Qed.

Lemma forward_inv self x y h lengths mask g yhat hidden_state cost g' :
  forward self x y h lengths mask g = Some (yhat, hidden_state, cost, g') →
  hidden_states self x h g = Some (hidden_state, g') ∧
  yhat = apply_mask (probabilities self hidden_state) mask ∧
  y ≠ [] ∧ yhat ≠ [] ∧
  cost = fadd (fmean (prediction_loss (cross_entropy (logEps self) y yhat) lengths))
              (Finite (l2_penalty (W_out self))).
Proof.
  unfold forward. intros H.
  destruct (hidden_states self x h g) as [[hs g1]|]; [|done]. simpl in H.
  destruct (last_step _ _ _) as [ls|] eqn:Hls; [|done]. simpl in H.
  inversion H; subst. repeat split; try done.
  - intros ->. by vm_compute in Hls.
  - intros Heq. unfold last_step in Hls. rewrite Heq in Hls.
    destruct (last y); by vm_compute in Hls.
Qed.

Lemma time_loop_length rnn (l : list Mat) h :
  length (time_loop rnn l h).1 = length l.
Proof.
  revert h. induction l as [|m l IH]; intros h; simpl; [done|].
  specialize (IH (EHRNN.forward rnn m h)).
  destruct (time_loop rnn l _). simpl in *. by f_equal.
Qed.

Lemma drop_t3_length keep pos x : length (drop_t3 keep pos x).1 = length x.
Proof.
  revert pos. induction x as [|m x IH]; intros pos; simpl; [done|].
  destruct (drop_mat keep pos m) as [m1 p1]. specialize (IH p1).
  destruct (drop_t3 keep p1 x). simpl in *. by f_equal.
Qed.

Lemma dropout_length training x g : length (dropout training x g).1 = length x.
Proof.
  unfold dropout. destruct training; [|done].
  pose proof (drop_t3_length (bern g) (bpos g) x) as H.
  by destruct (drop_t3 _ _ _).
Qed.

Lemma layer_pass_length self hiddenSize input_values h g hidden_state h' g' :
  layer_pass self hiddenSize input_values h g = Some (hidden_state, h', g') →
  length hidden_state = length input_values.
Proof.
  unfold layer_pass. intros H.
  destruct (EHRNN.__init__ _ _ _ _ _ g) as [rnn g1].
  pose proof (time_loop_length rnn input_values (init_hidden self)) as Htl.
  destruct (time_loop rnn input_values _) as [hs hl]. simpl in Htl.
  destruct (torch_stack hs) as [st|] eqn:Hst; [|done]. simpl in H.
  assert (st = hs) as -> by (destruct hs; by inversion Hst).
  pose proof (dropout_length (training self) hs g1) as Hd.
  destruct (dropout _ _ _). inversion H; subst. simpl in Hd. by rewrite Hd.
Qed.

Lemma hidden_states_length self x h g hidden_state g' :
  hidden_states self x h g = Some (hidden_state, g') →
  length hidden_state = length x.
Proof.
  unfold hidden_states. intros H. simpl in H. set (emb := tmap tanh _) in H.
  assert (length emb = length x) as He
    by (unfold emb, tmap, tadd_bias, tmatmul; by rewrite !length_fmap).
  destruct (layer_pass self _ emb h g) as [[[hs1 h1] ga]|] eqn:H1; [|done].
  simpl in H.
  destruct (layer_pass self _ hs1 h1 ga) as [[[hs2 h2] gb]|] eqn:H2; [|done].
  simpl in H. inversion H; subst.
  by rewrite (layer_pass_length _ _ _ _ _ _ _ _ H2), (layer_pass_length _ _ _ _ _ _ _ _ H1).
Qed.

Lemma forward_returns self x y h lengths mask g :
  x ≠ [] → y ≠ [] → length mask = length x →
  is_Some (forward self x y h lengths mask g).
Proof.
  intros Hx Hy Hm. unfold forward.
  destruct (hidden_states_returns self x h g Hx) as [[hs g1] Hhs].
  rewrite Hhs. simpl.
  pose proof (hidden_states_length _ _ _ _ _ _ Hhs) as Hlen.
  unfold last_step.
  destruct (last y) as [yl|] eqn:Hyl; [|by apply last_None in Hyl].
  simpl.
  destruct (last (apply_mask (probabilities self hs) mask)) as [pl|] eqn:Hpl.
  { simpl. by eexists. }
  apply last_None in Hpl. apply (f_equal length) in Hpl.
  unfold apply_mask, probabilities, softmax_dim1, tadd_bias, tmatmul in Hpl.
  rewrite length_zip_with, !length_fmap in Hpl. simpl in Hpl.
  destruct x; [done|]. simpl in *. lia.
Qed.

Lemma forward_shape self x y h lengths mask g yhat hidden_state cost g' :
  forward self x y h lengths mask g = Some (yhat, hidden_state, cost, g') →
  build_EHRNN.wf self →
  Forall (λ m : Mat, length m = batchSize self) x →
  is_mat (length x) (batchSize self) mask →
  is_t3 (length x) (batchSize self) (numClass self) yhat ∧
  is_t3 (length x) (batchSize self) (hiddenDimSize self) hidden_state.
Proof.
  intros H Hwf Hx Hm.
  destruct (forward_inv _ _ _ _ _ _ _ _ _ _ _ H) as (Hhs & -> & _).
  destruct (hidden_states_shape _ _ _ _ _ _ Hhs Hx) as [_ Hshape].
  split; [|done]. apply apply_mask_shape; [|done].
  apply probabilities_shape; [done| |by destruct Hshape].
  by eapply is_t3_rows.
Qed.
End network_output.

Example padding_one_patient :
  padding [[[0];[0]]] [[[0];[0]]] 1 1 = Some ([[[1]]], [[[1]]], [1%Z], [[1]])%R.
Proof. vm_compute. reflexivity. Qed.

Lemma model0_wf : build_EHRNN.wf model0.
Proof. repeat split; repeat constructor. Qed.

(** C9: when the batch has as many samples as the model's [batchSize]
    and [padding] is called with the model's number of classes, the
    [yhat] returned by [forward] and the label tensor [y] produced by
    [padding] both have the shape [[maxlen, n_samples, numClass]]. *)
Theorem forward_yhat_shape (self : build_EHRNN.t) seqs labels vocab n_classes
    (x y : T3) lengths (mask h : Mat) g (yhat hidden_state : T3) cost g' :
  padding seqs labels vocab n_classes = Some (x, y, lengths, mask) →
  length seqs = build_EHRNN.batchSize self →
  n_classes = build_EHRNN.numClass self →
  build_EHRNN.wf self →
  build_EHRNN.forward self x y h lengths mask g = Some (yhat, hidden_state, cost, g') →
  is_t3 (length y) (length seqs) n_classes yhat ∧
  is_t3 (length y) (length seqs) n_classes y.
Proof.
  intros Hpad HB HC Hwf Hf.
  destruct (padding_shape _ _ _ _ _ _ _ _ Hpad) as (maxlen & _ & _ & _ & Hx & Hy & Hm).
  assert (length x = length y) as Hxy by (destruct Hx as [-> _]; by destruct Hy as [-> _]).
  destruct (forward_shape _ _ _ _ _ _ _ _ _ _ _ Hf Hwf) as [Hyhat _].
  - rewrite <- HB. by eapply is_t3_rows.
  - rewrite <- HB. by destruct Hx as [-> _].
  - split.
    + by rewrite <- Hxy, HB, HC.
    + pose proof (proj1 Hy) as Hl. by rewrite Hl.
Qed.

Lemma forward_yhat_shape_witness :
  ∃ yhat hidden_state cost g',
    build_EHRNN.forward model0 [[[1]]]%R [[[1]]]%R [] [1%Z] [[1]]%R g0
      = Some (yhat, hidden_state, cost, g') ∧
    is_t3 1 1 1 yhat.
Proof.
  eexists _, _, _, _. split.
  - cbv -[Rplus Rmult Rminus Rdiv Ropp Rinv exp tanh ln sigmoid IZR INR Rlt_dec]. reflexivity.
  - eapply (forward_yhat_shape model0 [[[0];[0]]] [[[0];[0]]] 1 1
             [[[1]]]%R [[[1]]]%R [1%Z] [[1]]%R [] g0).
    + vm_compute; reflexivity.
    + reflexivity.
    + reflexivity.
    + repeat split; repeat constructor.
    + cbv -[Rplus Rmult Rminus Rdiv Ropp Rinv exp tanh ln sigmoid IZR INR Rlt_dec]. reflexivity.
Defined.

(** ** The softmax dimension *)

Section softmax.
Local Open Scope R_scope.
Import build_EHRNN.





Lemma exp_ratio a b : 0 < exp a / (exp a + exp b) < 1.
Proof.
  pose proof (exp_pos a). pose proof (exp_pos b).
  split.
  - apply Rdiv_lt_0_compat; lra.
  - apply (Rmult_lt_reg_r (exp a + exp b)); [lra|].
    unfold Rdiv. rewrite Rmult_assoc, Rinv_l by lra. lra.
Qed.

(** C2, at a batch of two samples over one code: the two entries of the
    pre-mask [yhat] lie strictly between 0 and 1 and sum to 1 over the
    samples, so the sum over the codes of a sample, which is its single
    entry, is not 1. *)
Theorem softmax_over_batch (w_emb b_emb w_out b_out eps : R) (training : bool)
    (x0 x1 : R) (h : Mat) (g : RNG) :
  ∃ hidden_state g' p q,
    hidden_states (model2 w_emb b_emb w_out b_out eps training)
      [[[x0]; [x1]]] h g = Some (hidden_state, g') ∧
    probabilities (model2 w_emb b_emb w_out b_out eps training) hidden_state
      = [[[p]; [q]]] ∧
    0 < p < 1 ∧ 0 < q < 1 ∧ p + q = 1 ∧
    rsum [p] ≠ 1 ∧ rsum [q] ≠ 1.
Proof.
  set (self := model2 w_emb b_emb w_out b_out eps training).
  destruct (hidden_states_returns self [[[x0]; [x1]]] h g) as [[hs g'] Hhs]; [done|].
  destruct (hidden_states_shape _ _ _ _ _ _ Hhs) as [_ [HT Hall]].
  { by repeat constructor. }
  simpl in HT, Hall.
  destruct hs as [|m [|? ?]]; try done.
  apply Forall_cons in Hall as [[HB Hrows] _].
  destruct m as [|r0 [|r1 [|? ?]]]; try done.
  apply Forall_cons in Hrows as [H0 Hrows].
  apply Forall_cons in Hrows as [H1 _].
  destruct r0 as [|u [|? ?]]; try done. destruct r1 as [|v [|? ?]]; try done.
  exists [[[u]; [v]]], g'. eexists _, _. split; [done|]. split.
  { cbv -[Rplus Rmult Rminus Rdiv Ropp Rinv exp tanh ln sigmoid IZR INR Rlt_dec]. reflexivity. }
  pose proof (exp_ratio (u * w_out + 0 + b_out) (v * w_out + 0 + b_out)) as Hp.
  pose proof (exp_ratio (v * w_out + 0 + b_out) (u * w_out + 0 + b_out)) as Hq.
  pose proof (exp_pos (u * w_out + 0 + b_out)).
  pose proof (exp_pos (v * w_out + 0 + b_out)).
  replace (exp (v * w_out + 0 + b_out) + exp (u * w_out + 0 + b_out))
    with (exp (u * w_out + 0 + b_out) + exp (v * w_out + 0 + b_out)) in Hq by lra.
  repeat split; try (simpl; lra).
  field. lra.
Qed.
End softmax.

Section resampling.
Local Open Scope R_scope.

Lemma tanh_0 : tanh 0 = 0.
Proof. unfold tanh. rewrite sinh_0, cosh_0. lra. Qed.

Lemma tanh_pos x : 0 < x → 0 < tanh x.
Proof.
  intros Hx. unfold tanh. apply Rdiv_lt_0_compat.
  - rewrite <- sinh_0. by apply sinh_lt.
  - unfold cosh. pose proof (exp_pos x). pose proof (exp_pos (- x)). lra.
Qed.

Lemma sigmoid_lt_1 x : sigmoid x < 1.
Proof.
  unfold sigmoid. pose proof (exp_pos (- x)) as He.
  apply (Rmult_lt_reg_r (1 + exp (- x))); [lra|].
  unfold Rdiv. rewrite Rmult_assoc, Rinv_l by lra. lra.
Qed.

(** One step of a scalar GRU from the zero state: with all gate weights
    0 the new state is 0, with all gate weights 1 and a positive input
    it is positive. *)
Lemma scalar_step_zero (a z r : R) :
  z * 0 + (1 - z) * tanh (a * 0 + 0 + (r * 0 * 0 + 0) + 0) = 0.
Proof.
  replace (a * 0 + 0 + (r * 0 * 0 + 0) + 0) with 0 by lra. rewrite tanh_0. lra.
Qed.

Lemma scalar_step_pos (a u r : R) :
  0 < a → 0 < sigmoid u * 0 + (1 - sigmoid u) * tanh (a * 1 + 0 + (r * 0 * 1 + 0) + 0).
Proof.
  intros Ha. replace (a * 1 + 0 + (r * 0 * 1 + 0) + 0) with a by lra.
  pose proof (tanh_pos a Ha). pose proof (sigmoid_lt_1 u).
  assert (0 < (1 - sigmoid u) * tanh a) by (apply Rmult_lt_0_compat; lra). lra.
Qed.

(** C1, observed on [model0] in evaluation mode: the parameters that
    [model.parameters()] yields are the embedding and the output head
    only, before and after any number of [forward] calls; the nine gate
    parameters are registered in the local [EHRNN] objects and in no
    attribute of the model; and two successive [forward] calls on the
    same input, with no optimizer step in between, return different
    hidden states, because every call draws new gate weights. *)
Theorem gate_weights_resampled :
  (∀ n, nn.parameters (nn.after_forwards n) = ["W_emb"; "b_emb"; "W_out"; "b_out"]) ∧
  (∀ n name, name ∈ nn.gate_parameters → name ∉ nn.parameters (nn.after_forwards n)) ∧
  nn.parameters nn.EHRNN_module = nn.gate_parameters ∧
  ∃ yhat1 hs1 c1 g1 yhat2 hs2 c2 g2,
    build_EHRNN.forward model0 [[[1]]] [[[1]]] [] [1%Z] [[1]] g_switch
      = Some (yhat1, hs1, c1, g1) ∧
    build_EHRNN.forward model0 [[[1]]] [[[1]]] [] [1%Z] [[1]] g1
      = Some (yhat2, hs2, c2, g2) ∧
    hs1 ≠ hs2.
Proof.
  assert (∀ n, nn.parameters (nn.after_forwards n)
               = ["W_emb"; "b_emb"; "W_out"; "b_out"]%string) as Hparams.
  { intros n. assert (nn.after_forwards n = nn.build_EHRNN_module) as ->.
    { induction n as [|n IH]; [done|].
      change (nn.after_forwards (S n))
        with (nn.assign (nn.after_forwards n) nn.forward_attrs).
      by rewrite IH. }
    by vm_compute. }
  split; [done|]. split.
  { intros n name Hin. rewrite Hparams. unfold nn.gate_parameters in Hin.
    repeat (apply elem_of_cons in Hin as [->|Hin];
            [intros Hp; repeat (apply elem_of_cons in Hp as [Hp|Hp]; [done|]);
             by apply elem_of_nil in Hp|]).
    by apply elem_of_nil in Hin. }
  split; [by vm_compute|].
  eexists _, _, _, _, _, _, _, _. split; [|split].
  - cbv -[Rplus Rmult Rminus Rdiv Ropp Rinv exp tanh ln sigmoid IZR INR Rlt_dec]. reflexivity.
  - cbv -[Rplus Rmult Rminus Rdiv Ropp Rinv exp tanh ln sigmoid IZR INR Rlt_dec]. reflexivity.
  - intros Heq. inversion Heq as [Hval]. clear Heq. revert Hval.
    set (e := tanh (1 * 1 + 0 + 0)).
    assert (0 < e) as He by (apply tanh_pos; lra).
    rewrite (scalar_step_zero e _ _).
    rewrite (scalar_step_zero 0 _ _).
    set (h1 := sigmoid _ * 0 + (1 - sigmoid _) * tanh (e * 1 + 0 + (_ * 0 * 1 + 0) + 0)).
    assert (0 < h1) as Hh1 by (by apply scalar_step_pos).
    pose proof (scalar_step_pos h1 (h1 * 1 + 0 + (0 * 1 + 0) + 0)
                  (sigmoid (h1 * 1 + 0 + (0 * 1 + 0) + 0)) Hh1) as Hh2.
    intros Hval. rewrite <- Hval in Hh2. lra.
Qed.
End resampling.

(** ** The cost *)

Section cost.
Local Open Scope R_scope.
Import build_EHRNN.
Implicit Types (self : build_EHRNN.t) (x y yhat : T3) (mask h : Mat) (g : RNG).
Implicit Types (ce : list (list (list fval))) (m : list (list fval)).

Lemma fadd_assoc (a b c : fval) : fadd (fadd a b) c = fadd a (fadd b c).
Proof. destruct a, b, c; simpl; try done. by rewrite Rplus_assoc. Qed.

Lemma fadd_comm (a b : fval) : fadd a b = fadd b a.
Proof. destruct a, b; simpl; try done. by rewrite Rplus_comm. Qed.

Lemma fsum_fvadd (u v : list fval) :
  length u = length v → fsum (fvadd u v) = fadd (fsum u) (fsum v).
Proof.
  revert v. induction u as [|a u IH]; intros [|c v] Hlen; simpl in *; try done.
  - by rewrite Rplus_0_r.
  - unfold fvadd in IH. rewrite IH by lia.
    rewrite !fadd_assoc. f_equal. rewrite <- !fadd_assoc. f_equal. apply fadd_comm.
Qed.

Lemma is_fmat_lookup B n m b (row : list fval) :
  is_fmat B n m → m !! b = Some row → length row = n.
Proof. intros [_ H] Hb. by eapply (proj1 (Forall_lookup _ _) H). Qed.

Lemma fmadd_shape B n m m' : is_fmat B n m → is_fmat B n m' → is_fmat B n (fmadd m m').
Proof.
  intros [H1 H2] [H3 H4]. split; [unfold fmadd; rewrite length_zip_with; lia|].
  apply Forall_lookup. intros i r Hr.
  apply lookup_zip_with_Some in Hr as (r1 & r2 & -> & Hr1 & Hr2).
  unfold fvadd. rewrite length_zip_with.
  rewrite (proj1 (Forall_lookup _ _) H2 _ _ Hr1), (proj1 (Forall_lookup _ _) H4 _ _ Hr2).
  lia.
Qed.

Lemma foldl_fmadd_row B C m (ms : list (list (list fval))) b :
  is_fmat B C m → Forall (is_fmat B C) ms → (b < B)%nat →
  ∃ row, foldl fmadd m ms !! b = Some row ∧ length row = C ∧
         fsum row
         = fadd (fsum (m !!! b)) (fsum ((λ m' : list (list fval), fsum (m' !!! b)) <$> ms)).
Proof.
  intros Hm Hms Hb. revert m Hm. induction Hms as [|m' ms Hm' Hms IH]; intros m Hm.
  - destruct (lookup_lt_is_Some_2 m b) as [row Hrow]; [destruct Hm; lia|].
    exists row. rewrite (list_lookup_total_correct _ _ _ Hrow).
    split; [done|]. split; [by eapply is_fmat_lookup|].
    simpl. destruct (fsum row); simpl; [by rewrite Rplus_0_r|done].
  - destruct (IH (fmadd m m') (fmadd_shape _ _ _ _ Hm Hm')) as (row & Hrow & Hlen & Hsum).
    exists row. split; [done|]. split; [done|]. rewrite Hsum.
    destruct (lookup_lt_is_Some_2 m b) as [r1 Hr1]; [destruct Hm; lia|].
    destruct (lookup_lt_is_Some_2 m' b) as [r2 Hr2]; [destruct Hm'; lia|].
    assert (fmadd m m' !! b = Some (fvadd r1 r2)) as Hr.
    { unfold fmadd. rewrite lookup_zip_with, Hr1. simpl. by rewrite Hr2. }
    rewrite (list_lookup_total_correct _ _ _ Hr), (list_lookup_total_correct _ _ _ Hr1),
      fmap_cons, (list_lookup_total_correct _ _ _ Hr2).
    rewrite fsum_fvadd; [by rewrite fadd_assoc|].
    by rewrite (is_fmat_lookup _ _ _ _ _ Hm Hr1), (is_fmat_lookup _ _ _ _ _ Hm' Hr2).
Qed.

Lemma prediction_loss_spec T B C ce lengths :
  is_ft3 T B C ce → ce ≠ [] → length lengths = B →
  prediction_loss ce lengths = imap (λ b len, fdiv_int (sample_ce ce b) len) lengths.
Proof.
  intros [HT Hall] Hne HL. destruct ce as [|m ms]; [done|].
  apply Forall_cons in Hall as [Hm Hms].
  apply list_eq. intros b. unfold prediction_loss.
  rewrite lookup_zip_with, list_lookup_imap, list_lookup_fmap.
  destruct (lengths !! b) as [len|] eqn:Hlen; simpl.
  - pose proof (lookup_lt_Some _ _ _ Hlen) as Hb. rewrite HL in Hb.
    destruct (foldl_fmadd_row B C m ms b Hm Hms Hb) as (row & Hrow & _ & Hsum).
    rewrite Hrow. simpl. by rewrite Hsum.
  - by destruct (foldl fmadd m ms !! b).
Qed.

Lemma rsum_app (u v : Vec) : rsum (u ++ v) = rsum u + rsum v.
Proof. induction u as [|a u IH]; simpl; [lra|]. rewrite IH. lra. Qed.

Lemma l2_penalty_spec (W : Mat) :
  l2_penalty W = 0.000001 * rsum ((λ row : Vec, rsum ((λ w, w * w) <$> row)) <$> W).
Proof.
  unfold l2_penalty. f_equal. induction W as [|row W IH]; [done|].
  change (concat (row :: W)) with (row ++ concat W).
  rewrite fmap_app, rsum_app, IH, fmap_cons.
  change (rsum (?a :: ?l)) with (a + rsum l). f_equal.
  clear. induction row as [|w row IH]; [done|]. rewrite !fmap_cons.
  change (rsum (?a :: ?l)) with (a + rsum l). rewrite IH.
  change (w ^ 2) with (w * (w * 1)). by rewrite Rmult_1_r.
Qed.

Lemma cross_entropy_shape eps y yhat T B C :
  is_t3 T B C y → is_t3 T B C yhat → is_ft3 T B C (cross_entropy eps y yhat).
Proof.
  intros [H1 H2] [H3 H4]. unfold cross_entropy.
  split; [rewrite length_zip_with; lia|].
  apply Forall_lookup. intros t r Hr.
  apply lookup_zip_with_Some in Hr as (m1 & m2 & -> & Hm1 & Hm2).
  pose proof (proj1 (Forall_lookup _ _) H2 _ _ Hm1) as [Ha Hb].
  pose proof (proj1 (Forall_lookup _ _) H4 _ _ Hm2) as [Hc Hd].
  split; [rewrite length_zip_with; lia|].
  apply Forall_lookup. intros b r Hr.
  apply lookup_zip_with_Some in Hr as (r1 & r2 & -> & Hr1 & Hr2).
  rewrite length_zip_with.
  rewrite (proj1 (Forall_lookup _ _) Hb _ _ Hr1), (proj1 (Forall_lookup _ _) Hd _ _ Hr2).
  lia.
Qed.

(** The cost that [forward] returns, in the words of the specification. *)
Lemma forward_cost self x y h lengths mask g yhat hidden_state cost g' T B :
  forward self x y h lengths mask g = Some (yhat, hidden_state, cost, g') →
  build_EHRNN.wf self → B = batchSize self →
  is_t3 T B (inputDimSize self) x → is_t3 T B (numClass self) y →
  is_mat T B mask → length lengths = B →
  cost = spec_cost (cross_entropy (logEps self) y yhat) lengths (W_out self).
Proof.
  intros Hf Hwf -> Hx Hy Hm HL.
  destruct (forward_inv _ _ _ _ _ _ _ _ _ _ _ Hf) as (_ & _ & Hyne & _ & ->).
  pose proof (proj1 Hx) as HTx. rewrite <- HTx in Hm.
  destruct (forward_shape _ _ _ _ _ _ _ _ _ _ _ Hf Hwf (is_t3_rows _ _ _ _ Hx) Hm)
    as [Hyhat _].
  rewrite HTx in Hyhat.
  pose proof (cross_entropy_shape (logEps self) y yhat _ _ _ Hy Hyhat) as Hce.
  unfold spec_cost, spec_loss. rewrite <- l2_penalty_spec.
  rewrite (prediction_loss_spec T (batchSize self) (numClass self)); try done.
  unfold cross_entropy. destruct Hy as [HTy _], Hyhat as [HTh _].
  destruct y; [done|]. destruct yhat; [simpl in *; lia|done].
Qed.

(** *** Means over values that may not be finite *)








End cost.

(** ** Where the cost is finite *)

Section finite_cost.
Local Open Scope R_scope.
Import build_EHRNN.
Implicit Types (self : build_EHRNN.t) (x y yhat : T3) (mask h : Mat) (g : RNG).

Lemma flog_pos (u : R) : 0 < u → flog u = Finite (ln u).
Proof. intros Hu. unfold flog. by destruct (Rlt_dec 0 u). Qed.

Lemma flog_nonpos (u : R) : u <= 0 → flog u = NonFinite.
Proof. intros Hu. unfold flog. destruct (Rlt_dec 0 u); [lra|done]. Qed.

Lemma ce_term_finite eps yv p :
  0 < eps → 0 <= p <= 1 →
  ce_term eps yv p = Finite (- (yv * ln (p + eps) + (1 - yv) * ln (1 - p + eps))).
Proof.
  intros He Hp. unfold ce_term, log_term.
  rewrite !flog_pos by lra. done.
Qed.

(** A logarithm of a number that is not positive makes the term [inf] or
    [nan], whatever the label is. *)
Lemma ce_term_nonfinite eps yv p :
  p + eps <= 0 ∨ 1 - p + eps <= 0 → ce_term eps yv p = NonFinite.
Proof.
  intros [H|H]; unfold ce_term, log_term; rewrite (flog_nonpos _ H); simpl; [done|].
  by destruct (fscale yv (flog (p + eps))).
Qed.






Lemma entry_zeros2_Some T B t i v : entry (zeros2 T B) t i = Some v → v = 0.
Proof.
  unfold entry, zeros2, zeros. intros H.
  destruct (replicate T (replicate B 0) !! t) as [row|] eqn:Hrow; [|done].
  apply lookup_replicate in Hrow as [-> _]. simpl in H.
  by apply lookup_replicate in H as [-> _].
Qed.

(** [padding] writes only zeros and ones into the mask. *)
Lemma padding_mask_range seqs labels vocab n_classes x y lengths mask :
  padding seqs labels vocab n_classes = Some (x, y, lengths, mask) →
  Forall (Forall (λ k, k = 0 ∨ k = 1)) mask.
Proof.
  intros H.
  destruct (padding_inv _ _ _ _ _ _ _ _ H) as (maxlen & _ & _ & _ & Hloop).
  destruct (padding_loop_spec _ _ _ _ _ _ _ _ _ _ Hloop) as (_ & _ & Sm & _ & _).
  apply Forall_lookup. intros t row Hrow. apply Forall_lookup. intros i k Hk.
  assert (entry mask t i = Some k) as He by (unfold entry; by rewrite Hrow).
  rewrite Sm in He.
  set (z := entry (zeros2 (Z.to_nat maxlen) (length seqs)) t i) in *.
  assert (∀ v, z = Some v → v = 0) as Hz by (intros v; apply entry_zeros2_Some).
  destruct (sample_at 0 seqs labels i), (lengths !! i); try (left; by apply Hz).
  case_decide; [|left; by apply Hz].
  destruct z; simpl in He; [|done]. inversion He. by right.
Qed.

End finite_cost.

Section zero_mask.
Local Open Scope R_scope.
Import build_EHRNN.
Implicit Types (self : build_EHRNN.t) (x y yhat p : T3) (mask h m : Mat) (g : RNG).

Lemma fmap_const_replicate {A B} (f : A → B) (c : B) (l : list A) :
  Forall (λ a, f a = c) l → f <$> l = replicate (length l) c.
Proof. induction 1 as [|a l Ha Hl IH]; [done|]. by rewrite fmap_cons, Ha, IH. Qed.

Lemma apply_mask_zeros p T B C :
  is_t3 T B C p → apply_mask p (zeros2 T B) = zeros3 T B C.
Proof.
  intros [HT Hall]. unfold apply_mask, zeros2, zeros3.
  rewrite zip_with_replicate_r_eq by done. rewrite <- HT.
  apply fmap_const_replicate. eapply Forall_impl; [done|].
  intros m [HB Hrows]. simpl. unfold zeros.
  rewrite zip_with_replicate_r_eq by done. rewrite <- HB.
  apply fmap_const_replicate. eapply Forall_impl; [done|].
  intros v Hv. simpl. rewrite <- Hv. apply fmap_const_replicate.
  apply Forall_forall. intros a _. lra.
Qed.

Lemma cross_entropy_zeros eps y T B C :
  is_t3 T B C y → cross_entropy eps y (zeros3 T B C) = ce_of_labels eps y.
Proof.
  intros [HT Hall]. unfold cross_entropy, zeros3, zeros2, zeros, ce_of_labels.
  rewrite zip_with_replicate_r_eq by done.
  apply Forall_fmap_ext. eapply Forall_impl; [done|].
  intros m [HB Hrows]. simpl.
  rewrite zip_with_replicate_r_eq by done.
  apply Forall_fmap_ext. eapply Forall_impl; [done|].
  intros v Hv. simpl. by rewrite zip_with_replicate_r_eq.
Qed.

(** With a prediction of 0 and a positive [eps] the cross-entropy term of
    a label [y] is [-(y * ln eps + (1 - y) * ln (1 + eps))]. *)
Lemma ce_term_zero eps yv :
  0 < eps → ce_term eps yv 0 = Finite (- (yv * ln eps + (1 - yv) * ln (1 + eps))).
Proof.
  intros He. rewrite ce_term_finite by lra. by rewrite Rplus_0_l, Rminus_0_r.
Qed.

Lemma forward_zero_mask_cost self x y h lengths g yhat hidden_state cost g' T B :
  forward self x y h lengths (zeros2 T B) g = Some (yhat, hidden_state, cost, g') →
  build_EHRNN.wf self → B = batchSize self →
  is_t3 T B (inputDimSize self) x → is_t3 T B (numClass self) y →
  length lengths = B →
  yhat = zeros3 T B (numClass self) ∧
  cost = spec_cost (ce_of_labels (logEps self) y) lengths (W_out self).
Proof.
  intros Hf Hwf HB Hx Hy HL.
  pose proof (forward_cost _ _ _ _ _ _ _ _ _ _ _ T B Hf Hwf HB Hx Hy
                (zeros2_shape T B) HL) as Hcost.
  destruct (forward_inv _ _ _ _ _ _ _ _ _ _ _ Hf) as (Hhs & Hyhat & _).
  assert (yhat = zeros3 T B (numClass self)) as ->.
  { rewrite Hyhat. apply apply_mask_zeros.
    destruct (hidden_states_shape _ _ _ _ _ _ Hhs) as [_ Hs].
    { rewrite <- HB. by eapply is_t3_rows. }
    rewrite (proj1 Hx), <- HB in Hs.
    apply probabilities_shape; [done|by eapply is_t3_rows|by destruct Hs]. }
  split; [done|]. by rewrite Hcost, (cross_entropy_zeros _ _ T B).
Qed.
End zero_mask.

(** C4: for conforming inputs the returned cost is the batch mean over the
    samples of the cross-entropy summed over all timesteps and codes and
    divided by the sample's entry of [lengths], plus 0.000001 times the sum
    of the squares of [W_out]; and it is the same for every value of
    [last_step]. *)
Theorem forward_cost_formula (self : build_EHRNN.t) (x y : T3) (h : Mat) lengths
    (mask : Mat) g (yhat hidden_state : T3) cost g' T B :
  build_EHRNN.forward self x y h lengths mask g = Some (yhat, hidden_state, cost, g') →
  build_EHRNN.wf self → B = build_EHRNN.batchSize self →
  is_t3 T B (build_EHRNN.inputDimSize self) x →
  is_t3 T B (build_EHRNN.numClass self) y →
  is_mat T B mask → length lengths = B →
  cost = build_EHRNN.spec_cost
           (build_EHRNN.cross_entropy (build_EHRNN.logEps self) y yhat)
           lengths (build_EHRNN.W_out self) ∧
  ∀ last_step : fval,
    cost = build_EHRNN.cost_of
             (build_EHRNN.prediction_loss
                (build_EHRNN.cross_entropy (build_EHRNN.logEps self) y yhat) lengths)
             last_step (build_EHRNN.W_out self).
Proof.
  intros Hf Hwf HB Hx Hy Hm HL. split.
  - by eapply forward_cost.
  - intros ls. by destruct (forward_inv _ _ _ _ _ _ _ _ _ _ _ Hf) as (_ & _ & _ & _ & ->).
Qed.

Lemma forward_cost_formula_witness :
  ∃ yhat hidden_state cost g',
    build_EHRNN.forward model0 [[[1]]]%R [[[1]]]%R [] [1%Z] [[1]]%R g0
      = Some (yhat, hidden_state, cost, g') ∧
    cost = build_EHRNN.spec_cost
             (build_EHRNN.cross_entropy (build_EHRNN.logEps model0) [[[1]]]%R yhat)
             [1%Z] (build_EHRNN.W_out model0).
Proof.
  eexists _, _, _, _. split.
  - cbv -[Rplus Rmult Rminus Rdiv Ropp Rinv exp tanh ln sigmoid IZR INR Rlt_dec]. reflexivity.
  - eapply (forward_cost_formula model0 [[[1]]]%R [[[1]]]%R [] [1%Z] [[1]]%R g0
             _ _ _ _ 1 1).
    + cbv -[Rplus Rmult Rminus Rdiv Ropp Rinv exp tanh ln sigmoid IZR INR Rlt_dec]. reflexivity.
    + repeat split; repeat constructor.
    + reflexivity.
    + repeat split; repeat constructor.
    + repeat split; repeat constructor.
    + repeat split; repeat constructor.
    + reflexivity.
Defined.

(** C3 (amended): the mask is applied to [yhat], not to the loss.  With
    an all-zero mask of the batch's shape, [yhat] is all zero and the
    returned cost does not depend on the network's output: it is the batch
    mean over the samples of the cross-entropy terms of the labels against
    the prediction 0, summed over all timesteps and codes and divided by
    the sample's entry of [lengths], plus the L2 penalty.  For a positive
    [logEps] the term of a label [y] is
    [-(y * ln logEps + (1 - y) * ln (1 + logEps))]. *)
Theorem forward_zero_mask (self : build_EHRNN.t) (x y : T3) (h : Mat) lengths g
    (yhat hidden_state : T3) cost g' T B :
  build_EHRNN.forward self x y h lengths (zeros2 T B) g
    = Some (yhat, hidden_state, cost, g') →
  build_EHRNN.wf self → B = build_EHRNN.batchSize self →
  is_t3 T B (build_EHRNN.inputDimSize self) x →
  is_t3 T B (build_EHRNN.numClass self) y →
  length lengths = B →
  yhat = zeros3 T B (build_EHRNN.numClass self) ∧
  cost = build_EHRNN.spec_cost
           (build_EHRNN.ce_of_labels (build_EHRNN.logEps self) y)
           lengths (build_EHRNN.W_out self) ∧
  ((0 < build_EHRNN.logEps self)%R →
   ∀ yv : R,
     build_EHRNN.ce_term (build_EHRNN.logEps self) yv 0
     = Finite (- (yv * ln (build_EHRNN.logEps self)
                  + (1 - yv) * ln (1 + build_EHRNN.logEps self)))%R).
Proof.
  intros Hf Hwf HB Hx Hy HL.
  destruct (forward_zero_mask_cost _ _ _ _ _ _ _ _ _ _ _ _ Hf Hwf HB Hx Hy HL)
    as [Hyhat Hcost].
  split; [done|]. split; [done|]. intros He yv. by apply ce_term_zero.
Qed.

Lemma forward_zero_mask_witness :
  ∃ yhat hidden_state cost g',
    build_EHRNN.forward model0 [[[1]]]%R [[[1]]]%R [] [1%Z] (zeros2 1 1) g0
      = Some (yhat, hidden_state, cost, g') ∧
    yhat = zeros3 1 1 1 ∧
    cost = build_EHRNN.spec_cost
             (build_EHRNN.ce_of_labels (build_EHRNN.logEps model0) [[[1]]]%R)
             [1%Z] (build_EHRNN.W_out model0) ∧
    ((0 < build_EHRNN.logEps model0)%R →
     ∀ yv : R,
       build_EHRNN.ce_term (build_EHRNN.logEps model0) yv 0
       = Finite (- (yv * ln (build_EHRNN.logEps model0)
                    + (1 - yv) * ln (1 + build_EHRNN.logEps model0)))%R).
Proof.
  eexists _, _, _, _. split.
  - cbv -[Rplus Rmult Rminus Rdiv Ropp Rinv exp tanh ln sigmoid IZR INR Rlt_dec]. reflexivity.
  - eapply (forward_zero_mask model0 [[[1]]]%R [[[1]]]%R [] [1%Z] g0 _ _ _ _ 1 1).
    + cbv -[Rplus Rmult Rminus Rdiv Ropp Rinv exp tanh ln sigmoid IZR INR Rlt_dec]. reflexivity.
    + repeat split; repeat constructor.
    + reflexivity.
    + repeat split; repeat constructor.
    + repeat split; repeat constructor.
    + reflexivity.
Defined.

(** C3 as stated fails: with an all-zero mask and a label equal to 1 the
    cost without the L2 penalty is [- ln logEps], which is not zero for
    [logEps = 1e-8]. *)
Lemma forward_zero_mask_nonzero_cost :
  ¬ (∀ yhat hidden_state cost g',
       build_EHRNN.forward model0 [[[1]]]%R [[[1]]]%R [] [1%Z] [[0]]%R g0
         = Some (yhat, hidden_state, cost, g') →
       cost = fadd (Finite 0) (Finite (build_EHRNN.l2_penalty (build_EHRNN.W_out model0)))).
Proof.
  intros H.
  destruct (forward_returns model0 [[[1]]]%R [[[1]]]%R [] [1%Z] [[0]]%R g0)
    as [[[[yhat hs] cost] g'] Hf]; [done..|].
  specialize (H _ _ _ _ Hf).
  destruct (forward_zero_mask_cost model0 _ _ _ _ _ _ _ _ _ 1 1 Hf)
    as [_ Hcost]; [by repeat split; repeat constructor..|].
  rewrite Hcost in H. clear Hcost Hf.
  unfold build_EHRNN.spec_cost in H. rewrite <- l2_penalty_spec in H.
  set (eps := build_EHRNN.logEps model0) in H.
  assert (0 < eps < 1)%R as Heps by (unfold eps; simpl; lra).
  assert (build_EHRNN.spec_loss (build_EHRNN.ce_of_labels eps [[[1%R]]]) [1%Z]
          = Finite ((((- (1 * ln eps + (1 - 1) * ln (1 + eps)) + 0) + 0) / 1 + 0) / INR 1)%R)
    as Hl.
  { unfold build_EHRNN.ce_of_labels. rewrite !fmap_cons, !fmap_nil.
    rewrite ce_term_zero by lra. reflexivity. }
  rewrite Hl in H. clear Hl. simpl in H. inversion H as [Heq]. clear H.
  assert (ln eps ≠ 0)%R as Hln by (apply ln_neq_0; lra).
  lra.
Qed.

(** ** Sequences with one visit or none *)

Example padding_single_visit :
  padding [[[0]]; [[0];[0]]] [[[0]]; [[0];[0]]] 1 1 =
  Some ([[[0]; [1]]], [[[0]; [1]]], [0; 1]%Z, [[0; 1]])%R.
Proof. vm_compute. reflexivity. Qed.





(** ** The zero state at the start of every layer *)

Section zero_state.
Import build_EHRNN.
Implicit Types (self : build_EHRNN.t) (x y : T3) (h : Mat) (g : RNG).

Lemma time_loop_recurrence rnn (input_values : list Mat) h0 :
  recurrence_from rnn h0 input_values (time_loop rnn input_values h0).1.
Proof.
  revert h0. induction input_values as [|seq rest IH]; intros h0.
  - split; [done|]. intros t s Hs. by rewrite lookup_nil in Hs.
  - simpl. specialize (IH (EHRNN.forward rnn seq h0)).
    destruct (time_loop rnn rest (EHRNN.forward rnn seq h0)) as [hs hl].
    simpl in *. destruct IH as [IHlen IHrec]. split; [simpl; by f_equal|].
    intros [|t] s Hs; simpl in *.
    + by inversion Hs.
    + rewrite (IHrec t s Hs). by destruct t.
Qed.

Lemma layer_pass_spec self hiddenSize (input_values : T3) h g hidden_state h' g' :
  layer_pass self hiddenSize input_values h g = Some (hidden_state, h', g') →
  let cell := EHRNN.__init__ (inputDimSize self) hiddenSize (embSize self)
                (batchSize self) (numClass self) g in
  ∃ states,
    recurrence_from cell.1 (zeros2 (batchSize self) (hiddenDimSize self))
      input_values states ∧
    hidden_state = (dropout (training self) states cell.2).1 ∧
    g' = (dropout (training self) states cell.2).2.
Proof.
  intros H. cbv zeta. unfold layer_pass in H.
  destruct (EHRNN.__init__ _ _ _ _ _ g) as [rnn g1]. cbn [fst snd].
  pose proof (time_loop_recurrence rnn input_values (init_hidden self)) as Hrec.
  destruct (time_loop rnn input_values (init_hidden self)) as [hs hl].
  simpl in Hrec. exists hs. split; [done|].
  destruct (torch_stack hs) as [st|] eqn:Hst; [|done]. simpl in H.
  assert (st = hs) as -> by (destruct hs; by inversion Hst).
  destruct (dropout (training self) hs g1) as [d g2]. by inversion H.
Qed.

Lemma hidden_states_spec self x h g hidden_state g' :
  hidden_states self x h g = Some (hidden_state, g') →
  let emb := tmap tanh (tadd_bias (tmatmul (embSize self) x (W_emb self)) (b_emb self)) in
  let zero := zeros2 (batchSize self) (hiddenDimSize self) in
  let cell1 := EHRNN.__init__ (inputDimSize self) (hiddenDimSize self) (embSize self)
                 (batchSize self) (numClass self) g in
  ∃ states1 states2,
    recurrence_from cell1.1 zero emb states1 ∧
    let dropped1 := dropout (training self) states1 cell1.2 in
    let cell2 := EHRNN.__init__ (inputDimSize self) (hiddenDimSize self) (embSize self)
                   (batchSize self) (numClass self) dropped1.2 in
    recurrence_from cell2.1 zero dropped1.1 states2 ∧
    hidden_state = (dropout (training self) states2 cell2.2).1.
Proof.
  unfold hidden_states. intros H. simpl in H. set (emb := tmap tanh _) in *.
  destruct (layer_pass self (hiddenDimSize self) emb h g) as [[[hs1 h1] g1]|] eqn:H1;
    [|done]. simpl in H.
  destruct (layer_pass self (hiddenDimSize self) hs1 h1 g1) as [[[hs2 h2] g2]|] eqn:H2;
    [|done]. simpl in H. inversion H; subst.
  destruct (layer_pass_spec _ _ _ _ _ _ _ _ H1) as (s1 & Hr1 & -> & ->).
  destruct (layer_pass_spec _ _ _ _ _ _ _ _ H2) as (s2 & Hr2 & -> & _).
  cbv zeta. exists s1, s2. split; [exact Hr1|]. split; [exact Hr2|reflexivity].
Qed.
End zero_state.

(** C8: every pass over a layer starts its recurrence from the all-zero
    state of shape [[batchSize, hiddenDimSize]]: the hidden states that
    [forward] returns are the dropout of the states of the second layer's
    recurrence from that zero state over the dropout of the states of the
    first layer's recurrence from that zero state over the embedded input.
    Hence [forward] gives the same outcome, and returns the same
    [(yhat, hidden_state, cost)], for every value of its [h] argument. *)
Theorem forward_restarts_from_zero (self : build_EHRNN.t) (x y : T3) (h : Mat)
    lengths (mask : Mat) g :
  (∀ h2 : Mat,
     build_EHRNN.forward self x y h2 lengths mask g
     = build_EHRNN.forward self x y h lengths mask g) ∧
  is_mat (build_EHRNN.batchSize self) (build_EHRNN.hiddenDimSize self)
    (zeros2 (build_EHRNN.batchSize self) (build_EHRNN.hiddenDimSize self)) ∧
  Forall (Forall (λ v, v = 0%R))
    (zeros2 (build_EHRNN.batchSize self) (build_EHRNN.hiddenDimSize self)) ∧
  ∀ (yhat hidden_state : T3) cost g',
    build_EHRNN.forward self x y h lengths mask g
      = Some (yhat, hidden_state, cost, g') →
    let emb := tmap tanh (tadd_bias (tmatmul (build_EHRNN.embSize self) x
                                       (build_EHRNN.W_emb self))
                            (build_EHRNN.b_emb self)) in
    let zero := zeros2 (build_EHRNN.batchSize self) (build_EHRNN.hiddenDimSize self) in
    let cell1 := EHRNN.__init__ (build_EHRNN.inputDimSize self)
                   (build_EHRNN.hiddenDimSize self) (build_EHRNN.embSize self)
                   (build_EHRNN.batchSize self) (build_EHRNN.numClass self) g in
    ∃ states1 states2,
      build_EHRNN.recurrence_from cell1.1 zero emb states1 ∧
      let dropped1 := dropout (build_EHRNN.training self) states1 cell1.2 in
      let cell2 := EHRNN.__init__ (build_EHRNN.inputDimSize self)
                     (build_EHRNN.hiddenDimSize self) (build_EHRNN.embSize self)
                     (build_EHRNN.batchSize self) (build_EHRNN.numClass self)
                     dropped1.2 in
      build_EHRNN.recurrence_from cell2.1 zero dropped1.1 states2 ∧
      hidden_state = (dropout (build_EHRNN.training self) states2 cell2.2).1.
Proof.
  split; [|split; [|split]].
  - intros h2. reflexivity.
  - apply zeros2_shape.
  - apply Forall_replicate. by apply Forall_replicate.
  - intros yhat hidden_state cost g' Hf.
    destruct (forward_inv _ _ _ _ _ _ _ _ _ _ _ Hf) as (Hhs & _).
    by apply (hidden_states_spec _ _ _ _ _ _ Hhs).
Qed.

Lemma forward_restarts_from_zero_witness :
  ∃ (yhat hidden_state : T3) cost g' states1 states2,
    build_EHRNN.forward model0 [[[1]]]%R [[[1]]]%R [[5%R]] [1%Z] [[1]]%R g0
      = Some (yhat, hidden_state, cost, g') ∧
    build_EHRNN.recurrence_from
      (EHRNN.__init__ 1 1 1 1 1 g0).1 (zeros2 1 1)
      (tmap tanh (tadd_bias (tmatmul 1 [[[1]]]%R [[1%R]]) [0%R])) states1 ∧
    build_EHRNN.recurrence_from
      (EHRNN.__init__ 1 1 1 1 1 (dropout false states1 (EHRNN.__init__ 1 1 1 1 1 g0).2).2).1
      (zeros2 1 1) (dropout false states1 (EHRNN.__init__ 1 1 1 1 1 g0).2).1 states2 ∧
    hidden_state
    = (dropout false states2
         (EHRNN.__init__ 1 1 1 1 1
            (dropout false states1 (EHRNN.__init__ 1 1 1 1 1 g0).2).2).2).1.
Proof.
  destruct (forward_restarts_from_zero model0 [[[1]]]%R [[[1]]]%R [] [1%Z] [[1]]%R g0)
    as (Hsame & _ & _ & Hspec).
  eassert (build_EHRNN.forward model0 [[[1]]]%R [[[1]]]%R [] [1%Z] [[1]]%R g0
           = Some (_, _, _, _)) as Hf.
  { cbv -[Rplus Rmult Rminus Rdiv Ropp Rinv exp tanh ln sigmoid IZR INR Rlt_dec].
    reflexivity. }
  destruct (Hspec _ _ _ _ Hf) as (s1 & s2 & H1 & H2 & H3).
  eexists _, _, _, _, s1, s2. split; [rewrite (Hsame [[5%R]]); exact Hf|].
  split; [exact H1|]. split; [exact H2|exact H3].
Defined.

Lemma EHRNN_forward_gru_witness :
  entry (EHRNN.forward rnn0 [[1%R]] [[0%R]]) 0 0
  = Some (EHRNN.gru_spec rnn0 [1%R] [0%R] 0).
Proof.
  apply (EHRNN_forward_gru rnn0 [[1%R]] [[0%R]] 1 0 0 [1%R] [0%R]).
  - repeat split; repeat constructor.
  - repeat split; repeat constructor.
  - repeat split; repeat constructor.
  - reflexivity.
  - reflexivity.
  - simpl; lia.
Defined.


(** ** The order of the visits and [sorted] *)

Section sorted_lemmas.
Import LoadData.
Implicit Types (a b c v w : visit) (l seq : patient).

Lemma visit_lt_irrefl a : visit_lt a a = false.
Proof. induction a as [|c a IH]; [done|]. simpl. by rewrite decide_True. Qed.

Lemma visit_le_antisym a b : visit_le a b → visit_le b a → a = b.
Proof.
  unfold visit_le. revert b. induction a as [|c a IH]; intros [|d b]; simpl; try done.
  destruct (decide (d = c)) as [->|Hne].
  - rewrite decide_True by done. intros H1 H2. f_equal. by apply IH.
  - rewrite decide_False by done. intros H1 H2.
    apply bool_decide_eq_false in H1, H2. lia.
Qed.

Lemma visit_le_total a b : visit_lt a b = true → visit_le a b.
Proof.
  unfold visit_le. revert b. induction a as [|c a IH]; intros [|d b]; simpl; try done.
  destruct (decide (c = d)) as [->|Hne].
  - rewrite decide_True by done. apply IH.
  - rewrite decide_False by done. intros H%bool_decide_eq_true.
    apply bool_decide_eq_false. lia.
Qed.

Lemma visit_le_trans a b c : visit_le a b → visit_le b c → visit_le a c.
Proof.
  unfold visit_le. revert b c.
  induction a as [|x a IH]; intros [|y b] [|z c]; simpl; try done.
  intros H1 H2. repeat case_decide; subst; try done;
    rewrite ?bool_decide_eq_false in *; try lia.
  by eapply IH.
Qed.

Lemma visit_le_refl a : visit_le a a.
Proof. apply visit_lt_irrefl. Qed.

Lemma ascending_nil : ascending [].
Proof. intros i j a b _ H. by rewrite lookup_nil in H. Qed.

Lemma ascending_cons v l :
  ascending (v :: l) ↔ Forall (visit_le v) l ∧ ascending l.
Proof.
  split.
  - intros H. split.
    + apply Forall_lookup. intros j b Hb. by apply (H 0 (S j) v b); [lia|..].
    + intros i j a b Hij Ha Hb. by apply (H (S i) (S j) a b); [lia|..].
  - intros [Hall Hl] i j a b Hij Ha Hb. destruct j as [|j]; [lia|]. simpl in Hb.
    destruct i as [|i]; simpl in Ha.
    + inversion Ha; subst. by eapply (proj1 (Forall_lookup _ _) Hall).
    + apply (Hl i j a b); [lia|done..].
Qed.

Lemma insort_perm v l : insort v l ≡ₚ v :: l.
Proof.
  induction l as [|w l IH]; [done|]. simpl. destruct (visit_lt v w); [done|].
  rewrite IH. apply Permutation_swap.
Qed.

Lemma sorted_perm seq : sorted seq ≡ₚ seq.
Proof.
  induction seq as [|v seq IH]; [done|]. unfold sorted in *. simpl.
  rewrite insort_perm. by rewrite IH.
Qed.

Lemma insort_ascending v l : ascending l → ascending (insort v l).
Proof.
  induction l as [|w l IH]; intros Hl; simpl.
  - apply ascending_cons. split; [done|apply ascending_nil].
  - apply ascending_cons in Hl as [Hw Hl].
    destruct (visit_lt v w) eqn:Hvw.
    + apply ascending_cons. split.
      * constructor; [by apply visit_le_total|].
        eapply Forall_impl; [exact Hw|]. intros b Hb.
        eapply visit_le_trans; [|exact Hb]. by apply visit_le_total.
      * apply ascending_cons. done.
    + apply ascending_cons. split; [|by apply IH].
      rewrite insort_perm. constructor; [exact Hvw|done].
Qed.

Lemma sorted_ascending seq : ascending (sorted seq).
Proof.
  induction seq as [|v seq IH]; [apply ascending_nil|].
  unfold sorted in *. simpl. by apply insort_ascending.
Qed.

Lemma insort_head v l : Forall (visit_le v) l → insort v l = v :: l.
Proof.
  induction l as [|w l IH]; [done|]. intros [Hw Hall]%Forall_cons. simpl.
  destruct (visit_lt v w) eqn:Hvw; [done|].
  assert (v = w) as -> by (by apply visit_le_antisym).
  by rewrite IH.
Qed.

Lemma sorted_fixed seq : ascending seq → sorted seq = seq.
Proof.
  induction seq as [|v seq IH]; [done|]. intros [Hall Hs]%ascending_cons.
  unfold sorted in *. simpl. rewrite IH by done. by apply insort_head.
Qed.

Lemma ascending_unique l1 l2 : ascending l1 → ascending l2 → l1 ≡ₚ l2 → l1 = l2.
Proof.
  revert l2. induction l1 as [|a l1 IH]; intros l2 H1 H2 Hp.
  - by apply Permutation_nil_l in Hp.
  - destruct l2 as [|b l2]; [by apply Permutation_nil_r in Hp|].
    apply ascending_cons in H1 as [Ha H1], H2 as [Hb H2].
    assert (a = b) as ->.
    { apply visit_le_antisym.
      - assert (b ∈ a :: l1) as Hin by (rewrite Hp; left).
        apply elem_of_cons in Hin as [->|Hin]; [apply visit_le_refl|].
        by apply (proj1 (Forall_forall _ _) Ha).
      - assert (a ∈ b :: l2) as Hin by (rewrite <- Hp; left).
        apply elem_of_cons in Hin as [->|Hin]; [apply visit_le_refl|].
        by apply (proj1 (Forall_forall _ _) Hb). }
    f_equal. apply IH; [done..|]. by apply Permutation_cons_inv in Hp.
Qed.
End sorted_lemmas.

(** ** Lemmas on [load_data] *)

Section getitem_lemmas.
Import LoadData.
Context {A B : Type}.
Implicit Types (a : list A) (b : list B) (idx : list nat).

Lemma getitem_is_Some a idx :
  is_Some (getitem a idx) ↔ Forall (λ i, i < length a) idx.
Proof.
  unfold getitem. rewrite mapM_is_Some. apply Forall_proper; [|done].
  intros i. simpl. apply lookup_lt_is_Some.
Qed.

Lemma getitem_length a idx r : getitem a idx = Some r → length r = length idx.
Proof. intros H. symmetry. by eapply length_mapM. Qed.

Lemma getitem_app a i1 i2 r1 r2 :
  getitem a i1 = Some r1 → getitem a i2 = Some r2 →
  getitem a (i1 ++ i2) = Some (r1 ++ r2).
Proof.
  unfold getitem. rewrite !mapM_Some. intros H1 H2. by apply Forall2_app.
Qed.

Lemma getitem_zip a b idx ra rb :
  getitem a idx = Some ra → getitem b idx = Some rb →
  getitem (zip a b) idx = Some (zip ra rb).
Proof.
  unfold getitem. rewrite !mapM_Some. intros Ha. revert rb.
  induction Ha as [|i x idx ra Hx Ha IH]; intros rb Hb.
  - inversion Hb. constructor.
  - inversion Hb as [|? y ? rb' Hy Hb']; subst. simpl. constructor; [|by apply IH].
    apply lookup_zip_with_Some. by exists x, y.
Qed.

Lemma getitem_fmap (f : A → B) a idx r :
  getitem a idx = Some r → getitem (f <$> a) idx = Some (f <$> r).
Proof.
  unfold getitem. rewrite !mapM_Some. intros H.
  induction H as [|i x idx r Hx H IH]; [constructor|].
  rewrite fmap_cons. constructor; [|done]. by rewrite list_lookup_fmap, Hx.
Qed.

Lemma getitem_perm a idx idx' r :
  idx ≡ₚ idx' → getitem a idx = Some r →
  ∃ r', getitem a idx' = Some r' ∧ r ≡ₚ r'.
Proof.
  unfold getitem. intros Hp. revert r.
  induction Hp as [|i idx idx' Hp IH|i j idx|idx1 idx2 idx3 Hp1 IH1 Hp2 IH2]; intros r H.
  - exists r. done.
  - simpl in *. destruct (a !! i) as [x|]; [|done]. simpl in *.
    destruct (mapM (λ i, a !! i) idx) as [r0|] eqn:Hr0; [|done]. simpl in H.
    inversion H; subst. destruct (IH r0 eq_refl) as (r' & -> & Hr'). simpl.
    exists (x :: r'). split; [done|]. by constructor.
  - simpl in *. destruct (a !! i) as [x|]; [|by destruct (a !! j)].
    destruct (a !! j) as [y|]; [|done]. simpl in *.
    destruct (mapM (λ i, a !! i) idx) as [r0|]; [|done]. simpl in *.
    inversion H; subst. exists (x :: y :: r0). split; [done|]. apply Permutation_swap.
  - destruct (IH1 r H) as (r1 & H1 & Hr1). destruct (IH2 r1 H1) as (r2 & H2 & Hr2).
    exists r2. split; [done|]. by rewrite Hr1.
Qed.

Lemma getitem_seq a n r :
  getitem a (seq 0 n) = Some r → n ≤ length a ∧ r = take n a.
Proof.
  intros H.
  assert (n ≤ length a) as Hn.
  { assert (is_Some (getitem a (seq 0 n))) as Hs by (by rewrite H).
    apply getitem_is_Some in Hs. destruct n as [|n]; [lia|].
    assert (n < length a); [|lia].
    apply (proj1 (Forall_forall _ _) Hs). apply elem_of_seq. lia. }
  split; [done|].
  pose proof (getitem_length _ _ _ H) as Hlen. rewrite length_seq in Hlen.
  unfold getitem in H. apply mapM_Some in H.
  apply list_eq. intros i. destruct (decide (i < n)) as [Hi|Hi].
  - rewrite lookup_take_lt by done.
    destruct (lookup_lt_is_Some_2 r i) as [y Hy]; [lia|].
    rewrite Hy. symmetry.
    apply (Forall2_lookup_lr _ _ _ i i y H); [|done].
    apply lookup_seq. lia.
  - rewrite lookup_take_ge by lia. apply lookup_ge_None. lia.
Qed.
End getitem_lemmas.

Section load_data_lemmas.
Import LoadData.
Implicit Types (sequences labels : list patient) (idx : list nat).

Lemma split_parts idx a b :
  drop (a + b) idx ++ take a idx ++ drop a (take (a + b) idx) ≡ₚ idx.
Proof.
  rewrite Permutation_app_comm.
  assert (take a idx = take a (take (a + b) idx)) as ->.
  { rewrite take_take. f_equal. lia. }
  rewrite <- app_assoc, (app_assoc (take a _)), take_drop. by rewrite take_drop.
Qed.

Lemma load_data_inv permutation sequences labels train test valid :
  load_data permutation sequences labels = Some (train, test, valid) →
  ∃ train_idx test_idx valid_idx train_x train_y test_x test_y valid_x valid_y,
    train_idx ++ test_idx ++ valid_idx ≡ₚ permutation (length labels) ∧
    length test_idx
      = ceil_percent 15 (length labels) `min` length (permutation (length labels)) ∧
    length valid_idx
      = ceil_percent 10 (length labels)
        `min` (length (permutation (length labels)) - ceil_percent 15 (length labels)) ∧
    getitem sequences train_idx = Some train_x ∧
    getitem labels train_idx = Some train_y ∧
    getitem sequences test_idx = Some test_x ∧
    getitem labels test_idx = Some test_y ∧
    getitem sequences valid_idx = Some valid_x ∧
    getitem labels valid_idx = Some valid_y ∧
    train = (sorted <$> train_x, sorted <$> train_y) ∧
    test = (sorted <$> test_x, sorted <$> test_y) ∧
    valid = (sorted <$> valid_x, sorted <$> valid_y).
Proof.
  unfold load_data. cbv zeta.
  set (n := length labels). set (idx := permutation n).
  set (a := ceil_percent 15 n). set (b := ceil_percent 10 n).
  intros H.
  destruct (getitem sequences (drop (a + b) idx)) as [tx|] eqn:H1; [|done].
  destruct (getitem labels (drop (a + b) idx)) as [ty|] eqn:H2; [|done].
  destruct (getitem sequences (take a idx)) as [ex|] eqn:H3; [|done].
  destruct (getitem labels (take a idx)) as [ey|] eqn:H4; [|done].
  destruct (getitem sequences (drop a (take (a + b) idx))) as [vx|] eqn:H5; [|done].
  destruct (getitem labels (drop a (take (a + b) idx))) as [vy|] eqn:H6; [|done].
  simpl in H. inversion H; subst train test valid.
  exists (drop (a + b) idx), (take a idx), (drop a (take (a + b) idx)),
    tx, ty, ex, ey, vx, vy.
  split; [apply split_parts|].
  split; [by rewrite length_take|].
  split; [rewrite length_drop, length_take; lia|].
  done.
Qed.

Lemma load_data_is_Some permutation sequences labels :
  (∀ n, permutation n ≡ₚ seq 0 n) →
  is_Some (load_data permutation sequences labels) ↔ length labels ≤ length sequences.
Proof.
  intros Hperm. split.
  - intros [[[train test] valid] H].
    destruct (load_data_inv _ _ _ _ _ _ H)
      as (i1 & i2 & i3 & tx & ty & ex & ey & vx & vy & Hp & _ & _ & H1 & _ & H3 & _ & H5 & _).
    pose proof (getitem_app _ _ _ _ _ H1 (getitem_app _ _ _ _ _ H3 H5)) as Hall.
    rewrite Hperm in Hp.
    destruct (getitem_perm _ _ _ _ Hp Hall) as (r' & Hr' & _).
    by apply getitem_seq in Hr' as [Hn _].
  - intros Hn. unfold load_data. cbv zeta.
    set (n := length labels) in *. set (idx := permutation n).
    set (a := ceil_percent 15 n). set (b := ceil_percent 10 n).
    assert (Forall (λ i, i < n) idx) as Hidx.
    { unfold idx. rewrite Hperm. apply Forall_forall. intros i Hi%elem_of_seq. lia. }
    assert (∀ part, part ⊆ idx →
              is_Some (getitem sequences part) ∧ is_Some (getitem labels part)) as Hpart.
    { intros part Hsub. rewrite !getitem_is_Some. split.
      - apply Forall_forall. intros i Hi. apply Hsub in Hi.
        apply (proj1 (Forall_forall _ _) Hidx) in Hi. lia.
      - apply Forall_forall. intros i Hi. apply Hsub in Hi.
        by apply (proj1 (Forall_forall _ _) Hidx) in Hi. }
    destruct (Hpart (drop (a + b) idx)) as [[tx ->] [ty ->]];
      [apply subseteq_drop|].
    destruct (Hpart (take a idx)) as [[ex ->] [ey ->]];
      [apply subseteq_take|].
    destruct (Hpart (drop a (take (a + b) idx))) as [[vx ->] [vy ->]].
    { etrans; [apply subseteq_drop|apply subseteq_take]. }
    done.
Qed.
End load_data_lemmas.

Section load_data_results.
Import LoadData.

(** X1: for a drawn permutation, [load_data] returns exactly when there
    are at least as many sequences as labels; with fewer sequences the
    indexing raises. *)
Theorem load_data_returns permutation (sequences labels : list patient) :
  (∀ n, permutation n ≡ₚ seq 0 n) →
  (is_Some (load_data permutation sequences labels)
   ↔ length labels ≤ length sequences).
Proof. apply load_data_is_Some. Qed.

(** X2: for a drawn permutation, [load_data] gives every patient to
    exactly one of the three sets: the sizes add up to [len(labels)], the
    sequences and the labels of a set are equally many, a data set of at
    least two patients has [ceil(0.15 n)] test and [ceil(0.10 n)]
    validation patients, and the training set is empty exactly when there
    are at most two patients. *)
Theorem load_data_sizes permutation (sequences labels : list patient)
    (train test valid : dataset) :
  (∀ n, permutation n ≡ₚ seq 0 n) →
  load_data permutation sequences labels = Some (train, test, valid) →
  length train.1 = length train.2 ∧ length test.1 = length test.2 ∧
  length valid.1 = length valid.2 ∧
  length train.1 + length test.1 + length valid.1 = length labels ∧
  (2 ≤ length labels →
   length test.1 = ceil_percent 15 (length labels) ∧
   length valid.1 = ceil_percent 10 (length labels)) ∧
  (train.1 = [] ↔ length labels ≤ 2).
Proof.
  intros Hperm H.
  destruct (load_data_inv _ _ _ _ _ _ H)
    as (i1 & i2 & i3 & tx & ty & ex & ey & vx & vy & Hp & Hl2 & Hl3
        & H1 & H2 & H3 & H4 & H5 & H6 & -> & -> & ->).
  apply getitem_length in H1, H2, H3, H4, H5, H6.
  assert (length (permutation (length labels)) = length labels) as Hn
    by (by rewrite Hperm, length_seq).
  apply Permutation_length in Hp. rewrite !length_app, Hn in Hp.
  rewrite Hn in Hl2, Hl3. cbn [fst snd]. rewrite !length_fmap.
  unfold ceil_percent in *.
  pose proof (Nat.div_mod_eq (15 * length labels + 99) 100).
  pose proof (Nat.mod_upper_bound (15 * length labels + 99) 100).
  pose proof (Nat.div_mod_eq (10 * length labels + 99) 100).
  pose proof (Nat.mod_upper_bound (10 * length labels + 99) 100).
  split; [lia|]. split; [lia|]. split; [lia|]. split; [lia|]. split; [lia|].
  split.
  - intros Hnil. apply (f_equal length) in Hnil. rewrite length_fmap in Hnil.
    simpl in Hnil. lia.
  - intros Hle. apply nil_length_inv. rewrite length_fmap. lia.
Qed.

(** X3: the pairs (sequence, label) of the three returned sets are,
    up to their order, the pairs of the input with both components
    sorted: no patient is lost or repeated, and every sequence stays with
    its own label. *)
Theorem load_data_partition permutation (sequences labels : list patient)
    (train test valid : dataset) :
  (∀ n, permutation n ≡ₚ seq 0 n) →
  load_data permutation sequences labels = Some (train, test, valid) →
  zip train.1 train.2 ++ zip test.1 test.2 ++ zip valid.1 valid.2
  ≡ₚ zip (sorted <$> sequences) (sorted <$> labels).
Proof.
  intros Hperm H.
  destruct (load_data_inv _ _ _ _ _ _ H)
    as (i1 & i2 & i3 & tx & ty & ex & ey & vx & vy & Hp & _ & _
        & H1 & H2 & H3 & H4 & H5 & H6 & -> & -> & ->).
  cbn [fst snd].
  set (all := zip (sorted <$> sequences) (sorted <$> labels)).
  assert (∀ part (rx ry : list patient),
            getitem sequences part = Some rx → getitem labels part = Some ry →
            getitem all part = Some (zip (sorted <$> rx) (sorted <$> ry))) as Hpart.
  { intros part rx ry Hx Hy. by apply getitem_zip; apply getitem_fmap. }
  pose proof (getitem_app _ _ _ _ _ (Hpart _ _ _ H1 H2)
                (getitem_app _ _ _ _ _ (Hpart _ _ _ H3 H4) (Hpart _ _ _ H5 H6))) as Hall.
  rewrite Hperm in Hp.
  destruct (getitem_perm _ _ _ _ Hp Hall) as (r' & Hr' & ->).
  apply getitem_seq in Hr' as [_ ->].
  rewrite take_ge; [done|].
  unfold all. rewrite length_zip_with, !length_fmap. lia.
Qed.

(** X4: [sorted(seq)] rearranges the visits of each patient: every
    returned sequence and label is in ascending order of its visits and is
    a rearrangement of a patient of the input; it is that patient
    unchanged only when the patient's visits were ascending already. *)
Theorem load_data_sorts_visits permutation (sequences labels : list patient)
    (train test valid : dataset) :
  load_data permutation sequences labels = Some (train, test, valid) →
  (∀ p : patient, p ∈ train.1 ++ test.1 ++ valid.1 →
     ascending p ∧ ∃ q : patient, q ∈ sequences ∧ p ≡ₚ q ∧ (p = q ↔ ascending q)) ∧
  (∀ p : patient, p ∈ train.2 ++ test.2 ++ valid.2 →
     ascending p ∧ ∃ q : patient, q ∈ labels ∧ p ≡ₚ q ∧ (p = q ↔ ascending q)).
Proof.
  intros H.
  destruct (load_data_inv _ _ _ _ _ _ H)
    as (i1 & i2 & i3 & tx & ty & ex & ey & vx & vy & _ & _ & _
        & H1 & H2 & H3 & H4 & H5 & H6 & -> & -> & ->).
  cbn [fst snd].
  assert (∀ (a : list patient) part r (p : patient),
            getitem a part = Some r → p ∈ sorted <$> r →
            ascending p ∧ ∃ q : patient, q ∈ a ∧ p ≡ₚ q ∧ (p = q ↔ ascending q)) as Hone.
  { intros a part r p Hr Hp. apply list_elem_of_fmap in Hp as (q & -> & Hq).
    split; [apply sorted_ascending|]. exists q. split.
    - apply list_elem_of_lookup in Hq as [k Hk].
      unfold getitem in Hr. apply mapM_Some in Hr.
      destruct (Forall2_lookup_r _ _ _ _ _ Hr Hk) as (i & _ & Hi).
      by eapply list_elem_of_lookup_2.
    - split; [apply sorted_perm|]. split.
      + intros <-. apply sorted_ascending.
      + apply sorted_fixed. }
  split; intros p Hp; rewrite !elem_of_app in Hp; destruct Hp as [Hp|[Hp|Hp]].
  - exact (Hone _ _ _ _ H1 Hp).
  - exact (Hone _ _ _ _ H3 Hp).
  - exact (Hone _ _ _ _ H5 Hp).
  - exact (Hone _ _ _ _ H2 Hp).
  - exact (Hone _ _ _ _ H4 Hp).
  - exact (Hone _ _ _ _ H6 Hp).
Qed.
End load_data_results.

(** ** Lemmas on the batches of the training loop *)

Section training_lemmas.
Import Training.

Lemma n_batches_bounds n B nb :
  n_batches n B = Some nb →
  0 < B ∧ (n = 0 → nb = (-1)%Z) ∧
  (0 < n → (0 ≤ nb)%Z ∧ (nb * Z.of_nat B < Z.of_nat n)%Z
           ∧ (Z.of_nat n ≤ (nb + 1) * Z.of_nat B)%Z).
Proof.
  unfold n_batches. case_decide as HB; [done|]. intros [= <-].
  split; [lia|].
  pose proof (Z.div_mod (Z.of_nat n + Z.of_nat B - 1) (Z.of_nat B) ltac:(lia)) as Hdm.
  pose proof (Z.mod_pos_bound (Z.of_nat n + Z.of_nat B - 1) (Z.of_nat B) ltac:(lia)) as Hr.
  set (q := ((Z.of_nat n + Z.of_nat B - 1) / Z.of_nat B)%Z) in *.
  set (r := ((Z.of_nat n + Z.of_nat B - 1) mod Z.of_nat B)%Z) in *.
  split.
  - intros ->. assert (q = 0%Z); [|lia]. nia.
  - intros Hn. assert (1 ≤ q)%Z by nia. nia.
Qed.

Lemma batch_block {A} (data : list A) nb B index :
  (0 ≤ nb)%Z → (nb * Z.of_nat B ≤ Z.of_nat (length data))%Z →
  index < Z.to_nat nb →
  batch data nb B index = take B (drop (index * B) data) ∧
  length (batch data nb B index) = B.
Proof.
  intros Hnb Hle Hi.
  assert ((index + 1) * B ≤ Z.to_nat nb * B) as Hmul by (apply Nat.mul_le_mono_r; lia).
  assert (Z.to_nat (nb * Z.of_nat B) = Z.to_nat nb * B) as HK.
  { rewrite Z2Nat.inj_mul, Nat2Z.id by lia. done. }
  assert (batch data nb B index = take B (drop (index * B) data)) as Heq.
  { unfold batch, slice_stop. cbv zeta.
    destruct (Z.ltb_spec (nb * Z.of_nat B) 0) as [Hneg|_]; [nia|].
    rewrite Z.min_l by done. rewrite HK, take_take, Nat.min_l by lia.
    rewrite take_drop_commute. f_equal. f_equal. lia. }
  split; [done|]. rewrite Heq, length_take, length_drop. lia.
Qed.

Lemma blocks_concat {A} (data : list A) B k :
  concat ((λ index, take B (drop (index * B) data)) <$> seq 0 k) = take (k * B) data.
Proof.
  induction k as [|k IH]; [done|].
  rewrite seq_S, fmap_app, concat_app, IH. simpl. rewrite app_nil_r.
  rewrite take_take_drop. f_equal. lia.
Qed.

Lemma epoch_inv sample train B bs :
  epoch sample train B = Some bs →
  ∃ nb, n_batches (length train.1) B = Some nb ∧ (0 ≤ nb)%Z ∧
    bs = (λ index, (batch train.1 nb B index, batch train.2 nb B index))
           <$> sample (Z.to_nat nb).
Proof.
  unfold epoch. destruct (n_batches (length train.1) B) as [nb|]; [|done]. simpl.
  unfold sample_range. destruct (Z.ltb_spec nb 0) as [Hneg|Hpos]; [done|]. simpl.
  intros [= <-]. exists nb. done.
Qed.
End training_lemmas.

Section training_results.
Import Training.

(** X5: every batch that an epoch of the training loop reads has
    exactly [batchSize] sequences and [batchSize] labels. *)
Theorem epoch_batches_full sample (train : LoadData.dataset) B bs :
  (∀ n, sample n ≡ₚ seq 0 n) →
  length train.2 = length train.1 →
  epoch sample train B = Some bs →
  Forall (λ b : list patient * list patient, length b.1 = B ∧ length b.2 = B) bs.
Proof.
  intros Hperm Hlen H. destruct (epoch_inv _ _ _ _ H) as (nb & Hnb & Hpos & ->).
  destruct (n_batches_bounds _ _ _ Hnb) as (HB & H0 & Hn).
  apply Forall_fmap, Forall_forall. intros index Hin. simpl.
  rewrite Hperm in Hin. apply elem_of_seq in Hin.
  assert (0 < length train.1) as Hne.
  { destruct (length train.1); [|lia]. specialize (H0 eq_refl). lia. }
  destruct (Hn Hne) as (_ & Hlt & _).
  split; apply batch_block; try done; lia.
Qed.

(** X6: an epoch reads [n_batches] blocks of [batchSize] consecutive
    patients; together they are the training set without its last [k]
    patients, with [1 ≤ k ≤ batchSize]: at least one patient is in no
    batch. *)
Theorem epoch_drops_tail sample (train : LoadData.dataset) B bs :
  (∀ n, sample n ≡ₚ seq 0 n) →
  epoch sample train B = Some bs →
  ∃ k, 1 ≤ k ≤ B ∧ length bs * B + k = length train.1 ∧
    concat (fst <$> bs) ≡ₚ take (length train.1 - k) train.1 ∧
    ∀ b, b ∈ bs → ∃ index, index < length bs ∧
      b.1 = take B (drop (index * B) train.1).
Proof.
  intros Hperm H. destruct (epoch_inv _ _ _ _ H) as (nb & Hnb & Hpos & ->).
  destruct (n_batches_bounds _ _ _ Hnb) as (HB & H0 & Hn).
  assert (0 < length train.1) as Hne.
  { destruct (length train.1); [|lia]. specialize (H0 eq_refl). lia. }
  destruct (Hn Hne) as (_ & Hlt & Hge).
  exists (length train.1 - Z.to_nat nb * B).
  rewrite length_fmap, Hperm, length_seq.
  assert (Z.to_nat nb * B < length train.1) as Hlt' by nia.
  assert (length train.1 ≤ (Z.to_nat nb + 1) * B) as Hge' by nia.
  split; [lia|]. split; [lia|]. split.
  - rewrite <- list_fmap_compose.
    erewrite (list_fmap_ext _ (λ index, take B (drop (index * B) train.1))
                (seq 0 (Z.to_nat nb))).
    + rewrite blocks_concat. replace (length train.1 - (length train.1 - Z.to_nat nb * B))
        with (Z.to_nat nb * B) by lia. done.
    + intros i index Hi. apply lookup_seq in Hi as [-> Hi]. simpl.
      apply batch_block; [done|lia|lia].
  - intros b Hb. apply list_elem_of_fmap in Hb as (index & -> & Hin).
    rewrite ?Hperm in Hin. apply elem_of_seq in Hin. exists index.
    split; [rewrite ?length_fmap, ?Hperm, ?length_seq; lia|].
    simpl. apply batch_block; [done|lia|lia].
Qed.

End training_results.

(** ** Further results on [padding] *)

Section padding_more.

(** X9: when [padding] returns, [lengths] holds [len(seq) - 1] for
    every sequence, its maximum is the number of timesteps, and [x], [y]
    and [mask] have the shapes [[maxlen, n_samples, vocab]],
    [[maxlen, n_samples, n_classes]] and [[maxlen, n_samples]]. *)
Theorem padding_tensor_shapes seqs labels vocab n_classes (x y : T3) lengths (mask : Mat) :
  padding seqs labels vocab n_classes = Some (x, y, lengths, mask) →
  lengths = (λ seq : patient, Z.of_nat (length seq) - 1)%Z <$> seqs ∧
  is_t3 (length x) (length seqs) vocab x ∧
  is_t3 (length x) (length seqs) n_classes y ∧
  is_mat (length x) (length seqs) mask ∧
  np_max lengths = Some (Z.of_nat (length x)).
Proof.
  intros H.
  destruct (padding_shape _ _ _ _ _ _ _ _ H) as (maxlen & Hmax & Hpos & -> & Hx & Hy & Hm).
  rewrite (proj1 Hx). split; [done|]. split; [done|]. split; [done|]. split; [done|].
  by rewrite Z2Nat.id.
Qed.

(** X10: [padding] raises on an empty batch and on a batch whose
    sequences are all empty; it returns when some sequence is not empty
    and every code is below [vocab], respectively [n_classes]. *)
Theorem padding_outcome seqs labels vocab n_classes :
  (seqs = [] → padding seqs labels vocab n_classes = None) ∧
  ((∀ seq : patient, seq ∈ seqs → seq = []) →
     padding seqs labels vocab n_classes = None) ∧
  ((∃ seq : patient, seq ∈ seqs ∧ seq ≠ []) →
   Forall (Forall (Forall (λ c, c < vocab))) seqs →
   Forall (Forall (Forall (λ c, c < n_classes))) labels →
   is_Some (padding seqs labels vocab n_classes)).
Proof.
  split; [|split].
  - by intros ->.
  - intros Hall. destruct (padding seqs labels vocab n_classes) as [[[[x y] lengths] mask]|] eqn:H;
      [|done].
    destruct (padding_shape _ _ _ _ _ _ _ _ H) as (maxlen & Hmax & Hpos & _).
    apply np_max_elem in Hmax. unfold seq_lengths in Hmax.
    apply list_elem_of_fmap in Hmax as (seq & -> & Hin).
    rewrite (Hall seq Hin) in Hpos. simpl in Hpos. lia.
  - intros (seq & Hin & Hne). by apply (padding_returns _ _ _ _ seq).
Qed.

(** X11: [padding] raises when a visit that it encodes holds a code
    outside the vocabulary: any visit but the last of a sequence, and any
    visit but the first of a label sequence that falls within the
    timesteps of the batch. *)
Theorem padding_index_error seqs labels vocab n_classes i (seq label : patient) t v c :
  seqs !! i = Some seq → labels !! i = Some label → c ∈ v →
  (seq !! t = Some v ∧ t + 1 < length seq ∧ vocab ≤ c →
   padding seqs labels vocab n_classes = None) ∧
  (label !! (t + 1) = Some v ∧ (∃ seq' : patient, seq' ∈ seqs ∧ t + 1 < length seq') ∧
   n_classes ≤ c →
   padding seqs labels vocab n_classes = None).
Proof.
  intros Hi Hl Hc.
  assert (i < length seqs) as HiB by (by eapply lookup_lt_Some).
  split.
  - intros (Hv & Ht & Hbig).
    destruct (padding seqs labels vocab n_classes) as [[[[x y] lengths] mask]|] eqn:H;
      [exfalso|done].
    destruct (padding_shape _ _ _ _ _ _ _ _ H) as (maxlen & Hmax & Hpos & _ & Hx & _).
    destruct (padding_inv _ _ _ _ _ _ _ _ H) as (maxlen' & Hmax' & _ & _ & Hloop).
    assert (maxlen' = maxlen) as -> by congruence.
    assert (t < Z.to_nat maxlen) as HtT.
    { assert (Z.of_nat (length seq) - 1 ≤ maxlen)%Z; [|lia].
      apply (np_max_ge _ _ _ Hmax). unfold seq_lengths. apply list_elem_of_fmap.
      exists seq. split; [done|]. by eapply list_elem_of_lookup_2. }
    destruct (padding_loop_spec _ _ _ _ _ _ _ _ _ _ Hloop) as (Hxs & _).
    specialize (Hxs t i). rewrite (sample_at_0 _ _ _ _ _ Hi Hl) in Hxs.
    unfold put_visit in Hxs. rewrite all_but_last_lookup in Hxs.
    rewrite decide_True in Hxs by lia.
    rewrite slice_zeros3 in Hxs by done. simpl in Hxs.
    destruct (slice_is_Some _ _ _ _ t i Hx HtT HiB) as (row & Hrow & _).
    rewrite Hrow in Hxs. symmetry in Hxs.
    assert (seq !!! t = v) as Hv' by (by apply list_lookup_total_correct).
    rewrite Hv' in Hxs.
    pose proof (index_put_bound _ _ _ c Hxs Hc) as Hlt.
    unfold zeros in Hlt. rewrite length_replicate in Hlt. lia.
  - intros (Hv & (seq' & Hin & Ht) & Hbig).
    destruct (padding seqs labels vocab n_classes) as [[[[x y] lengths] mask]|] eqn:H;
      [exfalso|done].
    destruct (padding_shape _ _ _ _ _ _ _ _ H) as (maxlen & Hmax & Hpos & _ & _ & Hy & _).
    destruct (padding_inv _ _ _ _ _ _ _ _ H) as (maxlen' & Hmax' & _ & _ & Hloop).
    assert (maxlen' = maxlen) as -> by congruence.
    assert (t < Z.to_nat maxlen) as HtT.
    { assert (Z.of_nat (length seq') - 1 ≤ maxlen)%Z; [|lia].
      apply (np_max_ge _ _ _ Hmax). unfold seq_lengths. apply list_elem_of_fmap.
      by exists seq'. }
    destruct (padding_loop_spec _ _ _ _ _ _ _ _ _ _ Hloop) as (_ & Hys & _).
    specialize (Hys t i). rewrite (sample_at_0 _ _ _ _ _ Hi Hl) in Hys.
    unfold put_visit in Hys. rewrite all_but_first_lookup in Hys.
    assert (t + 1 < length label) as Htl by (by eapply lookup_lt_Some).
    rewrite decide_True in Hys by lia.
    rewrite slice_zeros3 in Hys by done. simpl in Hys.
    destruct (slice_is_Some _ _ _ _ t i Hy HtT HiB) as (row & Hrow & _).
    rewrite Hrow in Hys. symmetry in Hys.
    assert (label !!! (t + 1) = v) as Hv' by (by apply list_lookup_total_correct).
    rewrite Hv' in Hys.
    pose proof (index_put_bound _ _ _ c Hys Hc) as Hlt.
    unfold zeros in Hlt. rewrite length_replicate in Hlt. lia.
Qed.

(** X12: every entry of the mask that [padding] returns is 0 or 1. *)
Theorem padding_mask_binary seqs labels vocab n_classes (x y : T3) lengths (mask : Mat) t i k :
  padding seqs labels vocab n_classes = Some (x, y, lengths, mask) →
  entry mask t i = Some k → k = 0%R ∨ k = 1%R.
Proof.
  intros H Hk. pose proof (padding_mask_range _ _ _ _ _ _ _ _ H) as Hall.
  unfold entry in Hk. destruct (mask !! t) as [row|] eqn:Hrow; [|done]. simpl in Hk.
  pose proof (proj1 (Forall_lookup _ _) Hall _ _ Hrow) as Hr.
  by apply (proj1 (Forall_lookup _ _) Hr _ _ Hk).
Qed.
End padding_more.

(** ** Further results on the cell and the network *)

Section network_more.
Import build_EHRNN.

(** X13: for a cell with the constructor's shapes, [EHRNN.forward]
    maps a state of shape [[B, hiddenDimSize]] to a state of the same
    shape. *)
Theorem EHRNN_forward_state_shape (rnn : EHRNN.t) (emb h : Mat) B :
  EHRNN.wf rnn → length emb = B → is_mat B (EHRNN.hiddenDimSize rnn) h →
  is_mat B (EHRNN.hiddenDimSize rnn) (EHRNN.forward rnn emb h).
Proof. apply EHRNN_forward_shape. Qed.





(** X8: a batch of the training loop, padded with the model's
    dimensions and passed to a model with the loop's [batchSize], has
    [batchSize] entries in [lengths], and [y], [yhat] and [hidden_state]
    of [batchSize] samples at every timestep. *)
Theorem epoch_batch_shapes sample (train : LoadData.dataset) self bs
    (batchX batchY : list patient) (x y : T3) lengths (mask h : Mat) g
    (yhat hidden_state : T3) cost g' :
  (∀ n, sample n ≡ₚ seq 0 n) →
  length train.2 = length train.1 →
  Training.epoch sample train (batchSize self) = Some bs →
  (batchX, batchY) ∈ bs →
  padding batchX batchY (inputDimSize self) (numClass self) = Some (x, y, lengths, mask) →
  build_EHRNN.wf self →
  forward self x y h lengths mask g = Some (yhat, hidden_state, cost, g') →
  length lengths = batchSize self ∧
  is_t3 (length x) (batchSize self) (numClass self) y ∧
  is_t3 (length x) (batchSize self) (numClass self) yhat ∧
  is_t3 (length x) (batchSize self) (hiddenDimSize self) hidden_state.
Proof.
  intros Hperm Hlen He Hin Hpad Hwf Hf.
  destruct (epoch_inv _ _ _ _ He) as (nb & Hnb & Hpos & ->).
  destruct (n_batches_bounds _ _ _ Hnb) as (HB & H0 & Hn).
  apply list_elem_of_fmap in Hin as (index & Heq & Hin). inversion Heq; subst batchX batchY.
  rewrite Hperm in Hin. apply elem_of_seq in Hin.
  assert (0 < length train.1) as Hne.
  { destruct (length train.1); [|lia]. specialize (H0 eq_refl). lia. }
  destruct (Hn Hne) as (_ & Hlt & _).
  destruct (batch_block train.1 nb (batchSize self) index) as [_ HbX]; [done|lia|lia|].
  destruct (padding_shape _ _ _ _ _ _ _ _ Hpad) as (maxlen & _ & _ & -> & Hx & Hy & Hm).
  rewrite HbX in Hx, Hy, Hm. pose proof (proj1 Hx) as HT. rewrite <- HT in Hx, Hy, Hm.
  split; [unfold seq_lengths; by rewrite length_fmap|]. split; [done|].
  by apply (forward_shape _ _ _ _ _ _ _ _ _ _ _ Hf Hwf (is_t3_rows _ _ _ _ Hx)).
Qed.
End network_more.

(** ** The range of the hidden states *)

Section state_range.
Import build_EHRNN.
Local Open Scope R_scope.
Implicit Types (z h m : Mat) (x : T3).











End state_range.

(** ** The further results at the example data *)

Lemma shuffle0_perm n : shuffle0 n ≡ₚ seq 0 n.
Proof. apply reverse_Permutation. Qed.

Example load_data_ex :
  LoadData.load_data shuffle0 sequences0 labels0 =
  Some (([[[0]]; [[1];[2]]], [[[5]]; [[1];[7]]]),
        ([[[0];[3]]], [[[8];[9]]]),
        ([[[1]]], [[[6]]])).
Proof. vm_compute. reflexivity. Qed.

Example epoch_ex :
  Training.epoch shuffle0 train0 1 = Some [([[[0];[0]]], [[[0];[0]]])].
Proof. vm_compute. reflexivity. Qed.

Lemma load_data_returns_witness :
  is_Some (LoadData.load_data shuffle0 sequences0 labels0).
Proof.
  apply (load_data_returns shuffle0 sequences0 labels0 shuffle0_perm). simpl. lia.
Defined.

Lemma load_data_sizes_witness :
  length [[[0]]; [[1];[2]]] + length [[[0];[3]]] + length [[[1]]] = length labels0 ∧
  (([[[0]]; [[1];[2]]] : list patient) = [] ↔ length labels0 ≤ 2).
Proof.
  destruct (load_data_sizes shuffle0 sequences0 labels0 _ _ _ shuffle0_perm load_data_ex)
    as (_ & _ & _ & Hsum & _ & Hempty).
  split; [exact Hsum|exact Hempty].
Defined.

Lemma load_data_partition_witness :
  zip [[[0]]; [[1];[2]]] [[[5]]; [[1];[7]]] ++ zip [[[0];[3]]] [[[8];[9]]]
    ++ zip [[[1]]] [[[6]]]
  ≡ₚ zip (LoadData.sorted <$> sequences0) (LoadData.sorted <$> labels0).
Proof.
  exact (load_data_partition shuffle0 sequences0 labels0 _ _ _ shuffle0_perm load_data_ex).
Defined.

Lemma load_data_sorts_visits_witness :
  LoadData.ascending [[1];[2]] ∧
  ∃ q : patient, q ∈ sequences0 ∧ [[1];[2]] ≡ₚ q
    ∧ ([[1];[2]] = q ↔ LoadData.ascending q).
Proof.
  destruct (load_data_sorts_visits shuffle0 sequences0 labels0 _ _ _ load_data_ex)
    as [Hx _].
  apply (Hx [[1];[2]]). simpl. right. left.
Defined.

Lemma epoch_batches_full_witness :
  Forall (λ b : list patient * list patient, length b.1 = 1 ∧ length b.2 = 1)
    [([[[0];[0]]], [[[0];[0]]])].
Proof.
  exact (epoch_batches_full shuffle0 train0 1 _ shuffle0_perm eq_refl epoch_ex).
Defined.

Lemma epoch_drops_tail_witness :
  ∃ k, 1 <= k <= 1 ∧ 1 * 1 + k = 2 ∧
    concat ([([[[0];[0]]], [[[0];[0]]])].*1 : list (list patient))
    ≡ₚ take (2 - k) train0.1 ∧
    ∀ b : list patient * list patient, b ∈ [([[[0];[0]]], [[[0];[0]]])] →
      ∃ index, index < 1 ∧ b.1 = take 1 (drop (index * 1) train0.1).
Proof.
  exact (epoch_drops_tail shuffle0 train0 1 _ shuffle0_perm epoch_ex).
Defined.


Lemma padding_tensor_shapes_witness :
  is_t3 2 2 3 [[[1;0;0]; [0;0;1]]; [[0;1;1]; [0;0;0]]]%R ∧
  is_mat 2 2 [[1;1]; [1;0]]%R ∧
  np_max [2; 1]%Z = Some 2%Z.
Proof.
  destruct (padding_tensor_shapes _ _ _ _ _ _ _ _ padding_ex) as (_ & Hx & _ & Hm & Hmax).
  split; [exact Hx|]. split; [exact Hm|exact Hmax].
Defined.

Lemma padding_outcome_witness :
  padding [[]; []] [[]; []] 1 1 = None ∧
  is_Some (padding [[[0];[0]]] [[[0];[0]]] 1 1).
Proof.
  destruct (padding_outcome [[]; []] [[]; []] 1 1) as (_ & Hnone & _).
  destruct (padding_outcome [[[0];[0]]] [[[0];[0]]] 1 1) as (_ & _ & Hsome).
  split.
  - apply Hnone. intros seq Hin. repeat (apply elem_of_cons in Hin as [->|Hin]; [done|]).
    by apply elem_of_nil in Hin.
  - apply Hsome.
    + exists [[0];[0]]. split; [by left|done].
    + repeat constructor.
    + repeat constructor.
Defined.

Lemma padding_index_error_witness :
  padding [[[5];[0]]] [[[0];[0]]] 1 1 = None ∧
  padding [[[0];[0]]] [[[0];[5]]] 1 1 = None.
Proof.
  split.
  - apply (proj1 (padding_index_error [[[5];[0]]] [[[0];[0]]] 1 1 0 [[5];[0]] [[0];[0]]
                     0 [5] 5 eq_refl eq_refl ltac:(by left))).
    split; [reflexivity|]. simpl. lia.
  - apply (proj2 (padding_index_error [[[0];[0]]] [[[0];[5]]] 1 1 0 [[0];[0]] [[0];[5]]
                     0 [5] 5 eq_refl eq_refl ltac:(by left))).
    split; [reflexivity|]. split; [|lia].
    exists [[0];[0]]. split; [by left|simpl; lia].
Defined.

Lemma padding_mask_binary_witness : (0 = 0 ∨ 0 = 1)%R.
Proof.
  apply (padding_mask_binary _ _ _ _ _ _ _ _ 1 1 0%R padding_ex). reflexivity.
Defined.

Lemma EHRNN_forward_state_shape_witness :
  is_mat 1 1 (EHRNN.forward rnn0 [[1%R]] [[0%R]]).
Proof.
  apply (EHRNN_forward_state_shape rnn0 [[1%R]] [[0%R]] 1).
  - repeat split; repeat constructor.
  - reflexivity.
  - repeat split; repeat constructor.
Defined.




Lemma epoch_batch_shapes_witness :
  ∃ (yhat hidden_state : T3) cost g',
    build_EHRNN.forward model0 [[[1]]]%R [[[1]]]%R [] [1%Z] [[1]]%R g0
      = Some (yhat, hidden_state, cost, g') ∧
    is_t3 1 1 1 yhat ∧ is_t3 1 1 1 hidden_state.
Proof.
  eexists _, _, _, _. split.
  - cbv -[Rplus Rmult Rminus Rdiv Ropp Rinv exp tanh ln sigmoid IZR INR Rlt_dec]. reflexivity.
  - eapply proj2, proj2,
      (epoch_batch_shapes shuffle0 train0 model0 _ [[[0];[0]]] [[[0];[0]]]
         [[[1]]]%R [[[1]]]%R [1%Z] [[1]]%R [] g0 _ _ _ _ shuffle0_perm eq_refl epoch_ex).
    + by left.
    + exact padding_one_patient.
    + repeat split; repeat constructor.
    + cbv -[Rplus Rmult Rminus Rdiv Ropp Rinv exp tanh ln sigmoid IZR INR Rlt_dec]. reflexivity.
Defined.

